(** * Coordination board: realtime synchronisation core

    A shallow embedding of the Socket.IO server handlers
    ([board:pull], [board:update], [item:patch], [lanes:move]) and of the
    client of [App.tsx]: the replica handlers ([board:state],
    [item:patch:apply], [lanes:move:apply]), the local edits
    ([addPilotToUnassigned], [patchItem], [deleteItem], [moveItem]), the
    drag handlers ([handleDragStart], [handleDragEnd]), the input formatters
    ([digits], [fmtHHMM], [fmtFL], [fmtMach]) and
    [parseWaypointsFromRoute]; followed by the properties of the board state
    they maintain.

    Conventions of the embedding.
    - A JS object used as a dictionary is a [gmap] with [string] keys; an
      array of ids is a [list string].
    - A timestamp is a JS number; it is taken integral and modelled in [Z].
      A field that may be missing from a payload is an [option].
    - A board state, stored or received, is an object with [lanes] and
      [items]; its [lastUpdated] may be missing.  Ids and lane names are
      strings, the empty string being the falsy one.
    - [Date.now()] is read from the environment: every handler that reads
      the clock takes the reading as its first argument [now].
    - What a handler sends is returned next to the new state, as a list of
      emissions.  A handler that raises returns the state it started from,
      nothing being written before the point of the exception, and the
      emission [Uncaught].
    - A property read on the server's [lanes] and [items] objects finds the
      own keys and what the object inherits: the names of
      [Object.prototype], and for [items] those of a prototype the
      [item:patch] handler has put in place by writing under [__proto__]. *)

From stdpp Require Import gmap strings list fin_maps.
From Stdlib Require Import ZArith Lia Ascii DecimalString.

Local Open Scope string_scope.
Local Open Scope list_scope.
Local Open Scope nat_scope.

(** ** Data model *)

(** The value of one field of a card: the six editable fields, [id] and
    [source] are strings, [routeWaypoints] is an array of strings. *)
Inductive value :=
  | VStr (s : string)
  | VArr (l : list string).

#[global] Instance value_eq_dec : EqDecision value.
Proof. solve_decision. Defined.

(** [interface BoardState]: [lanes : Record<LaneKey, string[]>],
    [items : Record<string, BoardItem>], [lastUpdated : number].  A
    [BoardItem] and a patch ([Partial<BoardItemFields>]) are objects, that is
    maps from field names to values.  The server reads [lastUpdated] through
    [?.lastUpdated || 0], so a payload without the field is representable.
    [lanes] and [items] hold the own keys of the two objects.  [items_proto]
    is the prototype of the [items] object: [None] stands for
    [Object.prototype], which every object literal and every parsed payload
    has; the server's [boardState.items[id] = ...] with [id = "__proto__"]
    can put an object of the program in its place.  The [lanes] object is
    always a literal or a parsed payload, so its prototype is
    [Object.prototype].  A value without [lanes] or [items] is outside this
    type: on such a stored value a handler raises at its first read of the
    missing member. *)
Record BoardState := mkState {
  lanes : gmap string (list string);
  items : gmap string (gmap string value);
  lastUpdated : option Z;
  items_proto : option (gmap string value)
}.

(** A board whose [items] object has the prototype of every plain object. *)
Notation mkBoard l i t := (mkState l i t None).

#[global] Instance BoardState_eq_dec : EqDecision BoardState.
Proof. solve_decision. Defined.

(** Payload of [item:patch] as the server destructures it:
    [({ id, patch, mtime })]; any of the three may be missing. *)
Record PatchMsg := mkPatchMsg {
  pm_id : option string;
  pm_patch : option (gmap string value);
  pm_mtime : option Z
}.

(** Payload of [lanes:move]: [({ id, from, to, index, mtime })]. *)
Record MoveMsg := mkMoveMsg {
  mv_id : option string;
  mv_from : option string;
  mv_to : option string;
  mv_index : option Z;
  mv_mtime : option Z
}.

(** Payload of [item:patch:apply] as the server builds it:
    [{ id, patch, mtime: boardState.lastUpdated }]. *)
Record PatchApply := mkPatchApply {
  pa_id : string;
  pa_patch : gmap string value;
  pa_mtime : option Z
}.

(** Payload of [lanes:move:apply]:
    [{ id, from, to, index, mtime: boardState.lastUpdated }]. *)
Record MoveApply := mkMoveApply {
  ma_id : string;
  ma_from : string;
  ma_to : string;
  ma_index : option Z;
  ma_mtime : option Z
}.

(** Events the server sends, with their payloads as they are read on the
    other side. *)
Inductive event :=
  | board_state_payload (p : BoardState)
  | item_patch_apply_ev (m : PatchApply)
  | lanes_move_apply_ev (m : MoveApply).

(** What JSON carries of a board: the own keys of its three members, not
    the prototype of [items]. *)
Definition wire (s : BoardState) : BoardState :=
  mkBoard (lanes s) (items s) (lastUpdated s).

(** The [board:state] event sent for the state [s]. *)
Definition board_state_ev (s : BoardState) : event := board_state_payload (wire s).

(** What a handler does to the outside: [socket.emit] answers the sender
    only, [socket.broadcast.emit] reaches every other connection, and a
    [TypeError] raised in the handler leaves it uncaught. *)
Inductive emission :=
  | ToSender (e : event)
  | ToOthers (e : event)
  | Uncaught.

(** Messages a connection may send to the server. *)
Inductive message :=
  | BoardPull
  | BoardUpdate (incoming : BoardState)
  | ItemPatch (m : PatchMsg)
  | LanesMove (m : MoveMsg).

(** ** JS helpers *)

(** [x?.lastUpdated || 0]: a missing field and [0] both read as [0]. *)
Definition stamp (s : BoardState) : Z := default 0%Z (lastUpdated s).

(** [mtime || Date.now()]: a missing [mtime] and [0] are falsy. *)
Definition or_now (mtime : option Z) (now : Z) : Z :=
  match mtime with
  | Some t => if (t =? 0)%Z then now else t
  | None => now
  end.

(** Truthiness of a string field: [!x] holds of a missing field and of the
    empty string. *)
Definition truthy (x : option string) : option string :=
  match x with
  | Some s => if bool_decide (s = "") then None else Some s
  | None => None
  end.

(** The sequence of lane [k]: the one under the own key [k], the empty one
    when [k] is no key. *)
Definition lane_or_empty (ls : gmap string (list string)) (k : string) : list string :=
  default [] (ls !! k).

(** The property names every plain object inherits from
    [Object.prototype]: its methods, and the accessor [__proto__]. *)
Definition Object_prototype : list string :=
  ["constructor"; "__defineGetter__"; "__defineSetter__"; "hasOwnProperty";
   "__lookupGetter__"; "__lookupSetter__"; "isPrototypeOf";
   "propertyIsEnumerable"; "toString"; "valueOf"; "__proto__";
   "toLocaleString"].

(** [boardState.lanes[k] || []] gives an array when [k] is an own key (its
    sequence) and when [k] is no property at all (the empty one); for a name
    inherited from [Object.prototype] it gives a function, or
    [Object.prototype] itself, which is truthy and is no array. *)
Definition lane_readable (ls : gmap string (list string)) (k : string) : bool :=
  bool_decide (is_Some (ls !! k)) || negb (bool_decide (k ∈ Object_prototype)).

(** What [boardState.items[id]] evaluates to. *)
Inductive jsread :=
  | RUndefined
  | RBuiltin
  | RObject (own : gmap string value)
  | RValue (v : value).

(** [boardState.items[id]]: the card under the own key [id]; else the
    property [id] of the prototype put in place by an earlier write to
    [__proto__], which is the value of a field; else what [Object.prototype]
    holds under [id]: for [__proto__] the accessor, which gives the prototype
    of [items], for its other names a method ([RBuiltin] stands for a method
    and for [Object.prototype] itself); else [undefined]. *)
Definition read_item (s : BoardState) (id : string) : jsread :=
  match items s !! id with
  | Some it => RObject it
  | None =>
      match items_proto s ≫= (λ o, o !! id) with
      | Some v => RValue v
      | None =>
          if bool_decide (id = "__proto__")
          then match items_proto s with
               | Some o => RObject o
               | None => RBuiltin
               end
          else if bool_decide (id ∈ Object_prototype) then RBuiltin
          else RUndefined
      end
  end.

(** Truthiness: of what [read_item] gives, only [undefined] and the empty
    string are falsy. *)
Definition js_truthy (r : jsread) : bool :=
  match r with
  | RUndefined => false
  | RBuiltin => true
  | RObject _ => true
  | RValue (VStr s) => negb (bool_decide (s = ""))
  | RValue (VArr _) => true
  end.

(** The key of position [i] of a string or an array: [i] in decimal. *)
Definition index_key (i : nat) : string := NilZero.string_of_uint (Nat.to_uint i).

Definition indexed (vs : list value) : gmap string value :=
  list_to_map (imap (λ i v, (index_key i, v)) vs).

Fixpoint chars (s : string) : list value :=
  match s with
  | EmptyString => []
  | String c rest => VStr (String c EmptyString) :: chars rest
  end.

(** [{ ...x }]: the own enumerable properties of [x]: the fields of an
    object, the characters of a string and the elements of an array under
    their positions, none for [undefined], for a method and for
    [Object.prototype]. *)
Definition own_enumerable (r : jsread) : gmap string value :=
  match r with
  | RObject o => o
  | RValue (VStr s) => indexed (chars s)
  | RValue (VArr l) => indexed (VStr <$> l)
  | RUndefined | RBuiltin => ∅
  end.

(** [arr.filter((x) => x !== id)]. *)
Definition without (id : string) (arr : list string) : list string :=
  filter (λ x, x ≠ id) arr.

(** [arr.splice(index, 0, id)] on a copy: the start position is clamped as
    [Array.prototype.splice] does, a negative [index] counts from the end. *)
Definition splice_start (index : Z) (len : nat) : nat :=
  if (index <? 0)%Z then Z.to_nat (Z.max (Z.of_nat len + index) 0)
  else Z.to_nat (Z.min index (Z.of_nat len)).

Definition splice (index : Z) (id : string) (arr : list string) : list string :=
  let start := splice_start index (length arr) in
  take start arr ++ id :: drop start arr.

(** [if (typeof index === 'number') toArr.splice(index, 0, id);
     else toArr.unshift(id)]. *)
Definition place (index : option Z) (id : string) (toArr : list string) : list string :=
  match index with
  | Some i => splice i id toArr
  | None => id :: toArr
  end.

(** [{ ...item, ...patch }]: the fields of [patch] win. *)
Definition merge (item patch : gmap string value) : gmap string value :=
  patch ∪ item.

(** ** Server *)

(** The five lanes of the board, all empty. *)
Definition DEFAULT_LANES : gmap string (list string) :=
  <["Unassigned" := []]> (<["New York" := []]> (<["Curacao" := []]>
    (<["Piarco" := []]> (<["Maiquetia" := []]> ∅)))).

(** [let boardState = { lanes: {...}, items: {}, lastUpdated: Date.now() }]. *)
Definition boardState_init (now : Z) : BoardState :=
  mkBoard DEFAULT_LANES ∅ (Some now).

(** [socket.on('board:pull', ...)]. *)
Definition board_pull (s : BoardState) : BoardState * list emission :=
  (s, [ToSender (board_state_ev s)]).

(** [socket.on('board:update', (incoming) => ...)]. *)
Definition board_update (s incoming : BoardState) : BoardState * list emission :=
  if (stamp s <=? stamp incoming)%Z
  then (incoming, [ToOthers (board_state_ev incoming)])
  else (s, []).

(** [boardState.items[id] = card; boardState.lastUpdated = t]: the write
    makes or replaces the own key [id], except that [__proto__], when neither
    [items] nor its prototype has it as a key of its own, reaches the
    accessor of [Object.prototype], which makes [card] the prototype of
    [items]. *)
Definition assign_item (s : BoardState) (id : string) (card : gmap string value)
    (t : Z) : BoardState :=
  if bool_decide (id = "__proto__")
     && bool_decide (items s !! id = None)
     && bool_decide (items_proto s ≫= (λ o, o !! id) = None)
  then mkState (lanes s) (items s) (Some t) (Some card)
  else mkState (lanes s) (<[id := card]> (items s)) (Some t) (items_proto s).

(** [socket.on('item:patch', ({ id, patch, mtime }) => ...)]. *)
Definition item_patch (now : Z) (s : BoardState) (m : PatchMsg)
    : BoardState * list emission :=
  match truthy (pm_id m), pm_patch m with
  | Some id, Some patch =>
      let found := read_item s id in
      if js_truthy found then
        let t := or_now (pm_mtime m) now in
        (assign_item s id (merge (own_enumerable found) patch) t,
         [ToOthers (item_patch_apply_ev (mkPatchApply id patch (Some t)))])
      else (s, [])
  | _, _ => (s, [])
  end.

(** [socket.on('lanes:move', ({ id, from, to, index, mtime }) => ...)]:
    [.filter] on what [lanes[from] || []] gives, then the array spread of
    what [lanes[to] || []] gives, raise a [TypeError] on a value that is no
    array, before anything is written or sent. *)
Definition lanes_move (now : Z) (s : BoardState) (m : MoveMsg)
    : BoardState * list emission :=
  match truthy (mv_id m), truthy (mv_from m), truthy (mv_to m) with
  | Some id, Some from, Some to =>
      if lane_readable (lanes s) from && lane_readable (lanes s) to then
        let fromArr := without id (lane_or_empty (lanes s) from) in
        let toArr := place (mv_index m) id (lane_or_empty (lanes s) to) in
        let t := or_now (mv_mtime m) now in
        (mkState (<[to := toArr]> (<[from := fromArr]> (lanes s))) (items s)
                 (Some t) (items_proto s),
         [ToOthers (lanes_move_apply_ev
                      (mkMoveApply id from to (mv_index m) (Some t)))])
      else (s, [Uncaught])
  | _, _, _ => (s, [])
  end.

(** One message handled to completion. *)
Definition handle (now : Z) (s : BoardState) (msg : message)
    : BoardState * list emission :=
  match msg with
  | BoardPull => board_pull s
  | BoardUpdate incoming => board_update s incoming
  | ItemPatch m => item_patch now s m
  | LanesMove m => lanes_move now s m
  end.

(** The server handles the messages of a trace one after the other; each
    comes with the clock reading at the time it is handled.  A handler that
    raises has changed nothing: the trace goes on from the same state, and a
    server that stops at the exception is left with the state of the trace
    read up to there. *)
Fixpoint run (s : BoardState) (trace : list (Z * message)) : BoardState :=
  match trace with
  | [] => s
  | (now, msg) :: rest => run (handle now s msg).1 rest
  end.

(** ** Client replica *)

(** An updater either returns the next mirror or raises a [TypeError]
    (reading a property of [undefined]). *)
Inductive outcome :=
  | Done (next : BoardState)
  | TypeError.

(** [socket.on("board:state", (incoming) => setState(() => incoming))]. *)
Definition board_state (prev incoming : BoardState) : outcome := Done incoming.

(** [socket.on("item:patch:apply", ({ id, patch, mtime }) => ...)]:
    [{ ...prev.items[id], ...patch }] spreads [undefined] as the empty
    object when [id] is not a key of [prev.items]. *)
Definition item_patch_apply (now : Z) (prev : BoardState) (m : PatchApply) : outcome :=
  let it := default ∅ (items prev !! pa_id m) in
  Done (mkBoard (lanes prev)
                (<[pa_id m := merge it (pa_patch m)]> (items prev))
                (Some (or_now (pa_mtime m) now))).

(** The updater shared, line for line, by [lanes:move:apply] and [moveItem]:
    [prev.lanes[from].filter(...)] and [[...prev.lanes[to]]] read the lane
    without a default. *)
Definition move_in_mirror (prev : BoardState) (id from to : string)
    (index : option Z) (t : Z) : outcome :=
  match lanes prev !! from with
  | None => TypeError
  | Some fromLane =>
      match lanes prev !! to with
      | None => TypeError
      | Some toLane =>
          let fromArr := without id fromLane in
          let toArr := place index id toLane in
          Done (mkBoard (<[to := toArr]> (<[from := fromArr]> (lanes prev)))
                        (items prev) (Some t))
      end
  end.

(** [socket.on("lanes:move:apply", ({ id, from, to, index, mtime }) => ...)]. *)
Definition lanes_move_apply (now : Z) (prev : BoardState) (m : MoveApply) : outcome :=
  move_in_mirror prev (ma_id m) (ma_from m) (ma_to m) (ma_index m)
                 (or_now (ma_mtime m) now).

(** What the reconciler does with one inbound event. *)
Definition receive (now : Z) (prev : BoardState) (e : event) : outcome :=
  match e with
  | board_state_payload incoming => board_state prev incoming
  | item_patch_apply_ev m => item_patch_apply now prev m
  | lanes_move_apply_ev m => lanes_move_apply now prev m
  end.

(** [function deleteItem(id)]: the updater always returns a fresh state
    stamped with [Date.now()]; the function returns nothing. *)
Definition deleteItem (now : Z) (prev : BoardState) (id : string) : BoardState :=
  mkBoard (without id <$> lanes prev) (delete id (items prev)) (Some now).

(** [function moveItem(id, from, to, index?)]: the local update, and the
    [lanes:move] message handed to [sendMove], which reads the clock again. *)
Definition moveItem (now now' : Z) (prev : BoardState) (id from to : string)
    (index : option Z) : outcome * MoveMsg :=
  (move_in_mirror prev id from to index now,
   mkMoveMsg (Some id) (Some from) (Some to) index (Some now')).

(** ** Board invariants, as computable predicates *)

(** The ids that occur in some lane. *)
Definition lane_ids (ls : gmap string (list string)) : gset string :=
  ⋃ (list_to_set <$> (map_to_list ls).*2).

(** Referential integrity: the ids of the lanes are the keys of [items]. *)
Definition ref_integrity (s : BoardState) : Prop :=
  lane_ids (lanes s) = dom (items s).

(** Occurrences of [id] in one lane, and over all lanes. *)
Definition count_id (id : string) (arr : list string) : nat :=
  length (filter (λ x, x = id) arr).

Definition occurrences (id : string) (ls : gmap string (list string)) : nat :=
  map_fold (λ _ arr n, count_id id arr + n) 0 ls.

(** Single-lane membership: every key of [items] occurs once over all the
    lanes, that is in one lane and once in it. *)
Definition single_lane (s : BoardState) : Prop :=
  set_Forall (λ id, occurrences id (lanes s) = 1) (dom (items s)).

#[global] Instance ref_integrity_dec s : Decision (ref_integrity s).
Proof. unfold ref_integrity. apply _. Defined.

#[global] Instance single_lane_dec s : Decision (single_lane s).
Proof. unfold single_lane. apply _. Defined.

(** ** Traces whose messages respect the board

    The server validates neither the payload of a coarse update nor the ids
    and lanes of a move.  The checks below say what a sender has to respect
    for an invariant to survive; [admissible] runs a check along a trace, on
    the state each message is handled in. *)

Fixpoint admissible (ok : BoardState → message → bool) (s : BoardState)
    (trace : list (Z * message)) : bool :=
  match trace with
  | [] => true
  | (now, msg) :: rest => ok s msg && admissible ok (handle now s msg).1 rest
  end.

(** A patch that will be applied names a key of [items]: the id, with a
    patch, is a key whenever [boardState.items[id]] is truthy. *)
Definition patches_a_key (s : BoardState) (m : PatchMsg) : bool :=
  match truthy (pm_id m), pm_patch m with
  | Some id, Some _ =>
      negb (js_truthy (read_item s id)) || bool_decide (is_Some (items s !! id))
  | _, _ => true
  end.

(** A coarse update that will be installed is itself referentially intact;
    a patch that will be applied names a key of [items]; a move that will be
    applied moves an id that is a key of [items]. *)
Definition keeps_integrity (s : BoardState) (msg : message) : bool :=
  match msg with
  | BoardUpdate incoming =>
      if (stamp s <=? stamp incoming)%Z
      then bool_decide (ref_integrity incoming) else true
  | ItemPatch m => patches_a_key s m
  | LanesMove m =>
      match truthy (mv_id m), truthy (mv_from m), truthy (mv_to m) with
      | Some id, Some _, Some _ => bool_decide (id ∈ dom (items s))
      | _, _, _ => true
      end
  | _ => true
  end.

(** A coarse update that will be installed has every item in one lane; a
    patch that will be applied names a key of [items]; a move that will be
    applied names two different lanes and, when it moves the id of an item,
    names as [from] the lane that holds it. *)
Definition keeps_single_lane (s : BoardState) (msg : message) : bool :=
  match msg with
  | BoardUpdate incoming =>
      if (stamp s <=? stamp incoming)%Z
      then bool_decide (single_lane incoming) else true
  | ItemPatch m => patches_a_key s m
  | LanesMove m =>
      match truthy (mv_id m), truthy (mv_from m), truthy (mv_to m) with
      | Some id, Some from, Some to =>
          bool_decide (from ≠ to) &&
          bool_decide (id ∈ dom (items s) → id ∈ lane_or_empty (lanes s) from)
      | _, _, _ => true
      end
  | _ => true
  end.

(** ** The store contract in the words of the specification *)

(** [replaceIfNewer] accepts: the candidate becomes the state and is
    broadcast to the other connections. *)
Definition installs (s incoming : BoardState) : Prop :=
  board_update s incoming = (incoming, [ToOthers (board_state_ev incoming)]).

(** [replaceIfNewer] rejects: same state, nothing sent. *)
Definition rejects (s incoming : BoardState) : Prop :=
  board_update s incoming = (s, []).


(** A handler mutated the store and told the other replicas. *)
Definition is_broadcast (e : emission) : bool :=
  match e with
  | ToOthers _ => true
  | ToSender _ | Uncaught => false
  end.

Definition broadcasts (es : list emission) : bool := existsb is_broadcast es.

(** ** Formatting helpers of the card inputs

    A character of a string is a code unit below 256. *)

(** [\d]: the ten ASCII digits. *)
Definition is_digit (c : ascii) : bool :=
  (48 <=? nat_of_ascii c) && (nat_of_ascii c <=? 57).

(** [const digits = (s) => (s || "").replace(/\D+/g, "")]: keep only the
    digits. *)
Fixpoint digits (s : string) : string :=
  match s with
  | EmptyString => EmptyString
  | String c rest => if is_digit c then String c (digits rest) else digits rest
  end.

(** [s.slice(0, n)] for a count [n]. *)
Fixpoint slice0 (n : nat) (s : string) : string :=
  match n, s with
  | S n', String c rest => String c (slice0 n' rest)
  | _, _ => EmptyString
  end.

(** [function fmtHHMM(input)]: [digits(input).slice(0, 4)]. *)
Definition fmtHHMM (input : string) : string := slice0 4 (digits input).

(** [function fmtFL(input)]: [d ? `FL${d}` : ""] for the first three
    digits [d]. *)
Definition fmtFL (input : string) : string :=
  let d := slice0 3 (digits input) in
  if bool_decide (d = "") then "" else "FL" +:+ d.

(** [function fmtMach(input)]: [d ? `M${d}` : ""] for the first two
    digits [d]. *)
Definition fmtMach (input : string) : string :=
  let d := slice0 2 (digits input) in
  if bool_decide (d = "") then "" else "M" +:+ d.

(** Every character of [s] is a digit. *)
Fixpoint all_digits (s : string) : bool :=
  match s with
  | EmptyString => true
  | String c rest => is_digit c && all_digits rest
  end.

(** ** Waypoints of a filed route *)

(** [\s] on code units below 256: tab, line feed, vertical tab, form feed,
    carriage return, space and no-break space. *)
Definition is_space (c : ascii) : bool :=
  let n := nat_of_ascii c in
  ((9 <=? n) && (n <=? 13)) || (n =? 32) || (n =? 160).

(** [route.replace(/\s+/g, " ")]: every maximal run of whitespace becomes
    one space; [in_run] tells that the previous character was whitespace. *)
Fixpoint replace_spaces (in_run : bool) (s : string) : string :=
  match s with
  | EmptyString => EmptyString
  | String c rest =>
      if is_space c
      then (if in_run then replace_spaces true rest
            else String " "%char (replace_spaces true rest))
      else String c (replace_spaces false rest)
  end.

(** [.trim()]: whitespace removed at both ends. *)
Fixpoint trim_start (s : string) : string :=
  match s with
  | EmptyString => EmptyString
  | String c rest => if is_space c then trim_start rest else s
  end.

Fixpoint trim_end (s : string) : string :=
  match s with
  | EmptyString => EmptyString
  | String c rest =>
      match trim_end rest with
      | EmptyString => if is_space c then EmptyString else String c EmptyString
      | kept => String c kept
      end
  end.

Definition trim (s : string) : string := trim_end (trim_start s).

(** [.split(" ")]: the pieces between single spaces, empty ones included;
    the empty string splits into one empty piece. *)
Fixpoint split_space (s : string) : list string :=
  match s with
  | EmptyString => [EmptyString]
  | String c rest =>
      if Ascii.eqb c " "%char
      then EmptyString :: split_space rest
      else match split_space rest with
           | piece :: pieces => String c piece :: pieces
           | [] => [String c EmptyString]
           end
  end.

(** [[A-Z0-9]]. *)
Definition is_upper_or_digit (c : ascii) : bool :=
  let n := nat_of_ascii c in
  ((65 <=? n) && (n <=? 90)) || is_digit c.

Fixpoint all_upper_or_digit (s : string) : bool :=
  match s with
  | EmptyString => true
  | String c rest => is_upper_or_digit c && all_upper_or_digit rest
  end.

(** [/^[A-Z0-9]{2,7}$/.test(t)]. *)
Definition is_waypoint (t : string) : bool :=
  (2 <=? String.length t) && (String.length t <=? 7) && all_upper_or_digit t.

(** [Array.from(new Set(toks))]: the first occurrence of each token, in
    order; [seen] holds the tokens already in the set. *)
Fixpoint dedupe (seen toks : list string) : list string :=
  match toks with
  | [] => []
  | t :: rest =>
      if bool_decide (t ∈ seen) then dedupe seen rest
      else t :: dedupe (t :: seen) rest
  end.

(** [function parseWaypointsFromRoute(route?: string | null)]. *)
Definition parseWaypointsFromRoute (route : option string) : list string :=
  match route with
  | None => []
  | Some r =>
      if bool_decide (r = "") then []
      else
        let toks :=
          filter (λ t, is_waypoint t = true)
            (filter (λ t, t ≠ "")
               (split_space (trim (replace_spaces false r)))) in
        dedupe [] toks
  end.

(** The word separator of a route written back as text. *)
Fixpoint join_space (toks : list string) : string :=
  match toks with
  | [] => ""
  | [t] => t
  | t :: rest => t +:+ " " +:+ join_space rest
  end.

(** ** Local edits of the client *)

(** Built-ins of the JS runtime that the client calls on strings and
    numbers. *)
Class JsRuntime := {
  toLowerCase : string → string;
  number_to_string : Z → string
}.

(** [interface VatsimPilot], the fields [addPilotToUnassigned] reads; the
    [flight_plan] object also carries [assigned_transponder]. *)
Record FlightPlan := mkFlightPlan {
  fp_altitude : option string;
  fp_route : option string;
  fp_assigned_transponder : option string
}.

Record VatsimPilot := mkPilot {
  p_callsign : string;
  p_altitude : Z;
  p_flight_plan : option FlightPlan
}.

(** [a || b] on strings: the empty string and a missing one are falsy. *)
Definition or_string (a : option string) (b : string) : string :=
  match a with
  | Some s => if bool_decide (s = "") then b else s
  | None => b
  end.

(** [Object.values(state.items).some((x) =>
      x.callsign.toLowerCase() === p.callsign.toLowerCase())] over the
    values [vals] in enumeration order: [None] stands for the [TypeError]
    raised on a value whose [callsign] is not a string. *)
Fixpoint some_callsign `{JsRuntime} (target : string)
    (vals : list (gmap string value)) : option bool :=
  match vals with
  | [] => Some false
  | x :: rest =>
      match x !! "callsign" with
      | Some (VStr c) =>
          if bool_decide (toLowerCase c = toLowerCase target) then Some true
          else some_callsign target rest
      | _ => None
      end
  end.

(** The card [addPilotToUnassigned] builds for pilot [p] under the id
    [id]. *)
Definition new_item `{JsRuntime} (id : string) (p : VatsimPilot)
    : gmap string value :=
  let plan_altitude := p_flight_plan p ≫= fp_altitude in
  let own_altitude :=
    if (p_altitude p =? 0)%Z then "" else number_to_string (p_altitude p) in
  <["id" := VStr id]> (
  <["source" := VStr "vatsim"]> (
  <["callsign" := VStr (p_callsign p)]> (
  <["waypoint" := VStr ""]> (
  <["estimate" := VStr ""]> (
  <["altitude" := VStr (fmtFL (or_string plan_altitude own_altitude))]> (
  <["mach" := VStr ""]> (
  <["squawk" := VStr (or_string (p_flight_plan p ≫= fp_assigned_transponder) "")]> (
  <["routeWaypoints" :=
      VArr (parseWaypointsFromRoute
              (Some (default "" (p_flight_plan p ≫= fp_route))))]> ∅)))))))).

(** [function addPilotToUnassigned(p)]: [vals] is [Object.values] of the
    items, [id] the value of [uuidv4()], [now] the clock reading.  Nothing is
    updated when the callsign is on the board; the updater raises when the
    mirror has no [Unassigned] lane. *)
Definition addPilotToUnassigned `{JsRuntime} (vals : list (gmap string value))
    (id : string) (now : Z) (prev : BoardState) (p : VatsimPilot) : outcome :=
  match some_callsign (p_callsign p) vals with
  | None => TypeError
  | Some true => Done prev
  | Some false =>
      match lanes prev !! "Unassigned" with
      | None => TypeError
      | Some unassigned =>
          Done (mkBoard (<["Unassigned" := id :: unassigned]> (lanes prev))
                        (<[id := new_item id p]> (items prev))
                        (Some now))
      end
  end.

(** [function patchItem(id, patch)]: the local update, and the
    [item:patch] message handed to [sendItemPatch], which reads the clock
    again. *)
Definition patchItem (now now' : Z) (prev : BoardState) (id : string)
    (patch : gmap string value) : BoardState * PatchMsg :=
  (mkBoard (lanes prev)
           (<[id := merge (default ∅ (items prev !! id)) patch]> (items prev))
           (Some now),
   mkPatchMsg (Some id) (Some patch) (Some now')).

(** Callsigns are unique on the board, case aside: two cards whose
    callsigns have the same lower-case form are the same card. *)
Definition unique_callsigns `{JsRuntime} (its : gmap string (gmap string value)) : Prop :=
  ∀ i j x y c d,
    its !! i = Some x → its !! j = Some y →
    x !! "callsign" = Some (VStr c) → y !! "callsign" = Some (VStr d) →
    toLowerCase c = toLowerCase d → i = j.

(** ** Drag and drop

    [Object.keys(state.lanes)] lists the lane names in insertion order,
    which a [gmap] does not record: the handlers take that list as their
    first argument [laneKeys]. *)

(** [arr.indexOf(x)]: the first position of [x]; [None] stands for [-1]. *)
Fixpoint index_of (x : string) (arr : list string) : option nat :=
  match arr with
  | [] => None
  | y :: rest => if bool_decide (y = x) then Some 0 else S <$> index_of x rest
  end.

(** [function handleDragStart(event)]: the value given to
    [setDragOrigin], that is [lane || null] for the first lane that includes
    the dragged id. *)
Definition handleDragStart (laneKeys : list string) (state : BoardState)
    (active : string) : option string :=
  truthy (List.find (λ l, bool_decide (active ∈ lane_or_empty (lanes state) l))
                    laneKeys).

(** What [handleDragEnd] calls. *)
Inductive drop_action :=
  | NoDrop
  | Reorder (lane : string) (oldIndex newIndex : nat)
  | Move (id from to : string).

(** [function handleDragEnd(event)], with [active] for [event.active.id]
    and [over] for [event.over?.id]: nothing when there is no target, no lane
    for it or no origin; [reorderInLane(origin, oldIndex, newIndex)] within
    one lane when both positions are found and differ;
    [moveItem(active.id, origin, overLane)], without an index, across
    lanes. *)
Definition handleDragEnd (laneKeys : list string) (state : BoardState)
    (dragOrigin : option string) (active : string) (over : option string)
    : drop_action :=
  match over with
  | None => NoDrop
  | Some overId =>
      let overLane :=
        List.find (λ k, bool_decide (k = overId)
                        || bool_decide (overId ∈ lane_or_empty (lanes state) k))
                  laneKeys in
      match truthy overLane, truthy dragOrigin with
      | Some overLane, Some origin =>
          if bool_decide (origin = overLane) then
            match index_of active (lane_or_empty (lanes state) origin),
                  index_of overId (lane_or_empty (lanes state) overLane) with
            | Some oldIndex, Some newIndex =>
                if bool_decide (oldIndex ≠ newIndex)
                then Reorder origin oldIndex newIndex
                else NoDrop
            | _, _ => NoDrop
            end
          else Move active origin overLane
      | _, _ => NoDrop
      end
  end.

(** A runtime for plain ASCII text and integer numbers, to run the client
    on examples: [toLowerCase] maps [A-Z] to [a-z], [String(n)] prints an
    integer in decimal. *)
Definition lower_char (c : ascii) : ascii :=
  let n := nat_of_ascii c in
  if (65 <=? n) && (n <=? 90) then ascii_of_nat (n + 32) else c.

Fixpoint lower_ascii (s : string) : string :=
  match s with
  | EmptyString => EmptyString
  | String c rest => String (lower_char c) (lower_ascii rest)
  end.

Definition plain_runtime : JsRuntime :=
  {| toLowerCase := lower_ascii;
     number_to_string := λ n, NilZero.string_of_int (Z.to_int n) |}.

(** A sequence of coarse updates, each with the clock reading at its
    handling. *)
Definition coarse_trace (payloads : list (Z * BoardState)) : list (Z * message) :=
  (λ nq, (nq.1, BoardUpdate nq.2)) <$> payloads.

(** ** Coarse updates: last write wins *)

Lemma board_update_cases (s incoming : BoardState) :
  ((stamp s ≤ stamp incoming)%Z ∧ installs s incoming) ∨
  ((stamp incoming < stamp s)%Z ∧ rejects s incoming).
Proof.
  unfold installs, rejects, board_update.
  destruct (Z.leb_spec (stamp s) (stamp incoming)); [left | right]; done.
Qed.

Lemma installs_iff (s incoming : BoardState) :
  installs s incoming ↔ (stamp s ≤ stamp incoming)%Z.
Proof.
  split.
  - intros Hin. destruct (board_update_cases s incoming) as [[? _] | [_ Hrej]]; [done |].
    unfold installs, rejects in *. congruence.
  - intros Hle. destruct (board_update_cases s incoming) as [[_ ?] | [? _]]; [done | lia].
Qed.

Lemma rejects_iff (s incoming : BoardState) :
  rejects s incoming ↔ (stamp incoming < stamp s)%Z.
Proof.
  split.
  - intros Hrej. destruct (board_update_cases s incoming) as [[_ Hin] | [? _]]; [| done].
    unfold installs, rejects in *. congruence.
  - intros Hlt. destruct (board_update_cases s incoming) as [[? _] | [_ ?]]; [lia | done].
Qed.

(** C3. The [board:update] handler installs the candidate exactly when the
    candidate's [lastUpdated] is at least the current one (a missing field
    reads as 0, ties are accepted); it then broadcasts the candidate.
    Otherwise it leaves the stored state as it is and emits nothing. *)
Theorem board_update_installs_iff_not_older (s incoming : BoardState) :
  (installs s incoming ↔ (stamp incoming >= stamp s)%Z) ∧
  (rejects s incoming ↔ ¬ (stamp incoming >= stamp s)%Z) ∧
  (installs s incoming ∨ rejects s incoming) ∧
  (∀ a b : Z, lastUpdated s = Some a → lastUpdated incoming = Some b →
     (installs s incoming ↔ (b >= a)%Z) ∧
     ((b < a)%Z → (board_update s incoming).1 = s ∧ (board_update s incoming).2 = [])).
Proof.
  split; [| split; [| split]].
  - rewrite installs_iff. lia.
  - rewrite rejects_iff. lia.
  - destruct (board_update_cases s incoming) as [[_ ?] | [_ ?]]; auto.
  - intros a b Ha Hb.
    assert (stamp s = a) as Hsa by (unfold stamp; by rewrite Ha).
    assert (stamp incoming = b) as Hsb by (unfold stamp; by rewrite Hb).
    split.
    + rewrite installs_iff. lia.
    + intros Hlt. assert (rejects s incoming) as Hrej by (apply rejects_iff; lia).
      unfold rejects in Hrej. by rewrite Hrej.
Qed.

(** C7. Two coarse updates stamped [t1 < t2], handled in either order by a
    store whose stamp is at most [t1], leave the store equal to the payload
    stamped [t2]. *)
Theorem board_update_order_independent
    (s p1 p2 : BoardState) (t1 t2 n1 n2 : Z) :
  lastUpdated p1 = Some t1 →
  lastUpdated p2 = Some t2 →
  (stamp s ≤ t1)%Z →
  (t1 < t2)%Z →
  run s [(n1, BoardUpdate p1); (n2, BoardUpdate p2)] = p2 ∧
  run s [(n1, BoardUpdate p2); (n2, BoardUpdate p1)] = p2.
Proof.
  intros H1 H2 Hs Hlt.
  assert (stamp p1 = t1) as E1 by (unfold stamp; by rewrite H1).
  assert (stamp p2 = t2) as E2 by (unfold stamp; by rewrite H2).
  assert (installs s p1) as I1 by (apply installs_iff; lia).
  assert (installs p1 p2) as I12 by (apply installs_iff; lia).
  assert (installs s p2) as I2 by (apply installs_iff; lia).
  assert (rejects p2 p1) as R21 by (apply rejects_iff; lia).
  unfold installs, rejects in *. simpl.
  split.
  - by rewrite I1; simpl; rewrite I12.
  - by rewrite I2; simpl; rewrite R21.
Qed.

Lemma board_update_order_independent_witness :
  let s := boardState_init 10 in
  let p1 := mkBoard DEFAULT_LANES ∅ (Some 20%Z) in
  let p2 := mkBoard (<["Piarco" := ["I1"]]> DEFAULT_LANES)
                    {["I1" := {["callsign" := VStr "JBU123"]}]} (Some 30%Z) in
  run s [(11%Z, BoardUpdate p1); (12%Z, BoardUpdate p2)] = p2 ∧
  run s [(11%Z, BoardUpdate p2); (12%Z, BoardUpdate p1)] = p2.
Proof.
  intros s p1 p2.
  apply (board_update_order_independent s p1 p2 20 30 11 12);
    [reflexivity | reflexivity | unfold stamp; simpl; lia | lia].
Defined.

(** C10 (as amended). A coarse update whose payload has no [lastUpdated],
    or has [lastUpdated = 0], is compared as stamp 0: it is installed exactly
    when the current stamp is at most 0, that is when the current
    [lastUpdated] is missing, zero or negative; a state with a positive
    [lastUpdated] rejects it and is left unchanged, with nothing sent. *)
Theorem board_update_unstamped (s incoming : BoardState) :
  lastUpdated incoming = None ∨ lastUpdated incoming = Some 0%Z →
  stamp incoming = 0%Z ∧
  (installs s incoming ↔
     lastUpdated s = None ∨ ∃ t, lastUpdated s = Some t ∧ (t ≤ 0)%Z) ∧
  (∀ t, lastUpdated s = Some t → (0 < t)%Z →
     rejects s incoming ∧ (board_update s incoming).1 = s).
Proof.
  intros Hinc.
  assert (stamp incoming = 0%Z) as E0
    by (unfold stamp; destruct Hinc as [-> | ->]; done).
  split; [done | split].
  - rewrite installs_iff, E0. unfold stamp.
    destruct (lastUpdated s) as [t |]; simpl.
    + split.
      * intros Hle. right. by exists t.
      * intros [? | (t' & [= <-] & ?)]; [done | lia].
    + split; [by left | lia].
  - intros t Ht Hpos.
    assert (rejects s incoming) as Hrej.
    { apply rejects_iff. rewrite E0. unfold stamp. rewrite Ht. simpl. lia. }
    split; [done |]. unfold rejects in Hrej. by rewrite Hrej.
Qed.

Lemma board_update_unstamped_witness :
  let s := mkBoard DEFAULT_LANES ∅ (Some 1700000000000%Z) in
  let incoming := mkBoard DEFAULT_LANES ∅ None in
  rejects s incoming ∧ (board_update s incoming).1 = s.
Proof.
  intros s incoming.
  destruct (board_update_unstamped s incoming (or_introl eq_refl)) as (_ & _ & Hpos).
  apply (Hpos 1700000000000%Z); [reflexivity | lia].
Defined.

(** C10 as stated fails: a store whose [lastUpdated] is [-1] (neither
    missing nor 0) installs a payload that has no [lastUpdated]. *)
Lemma board_update_unstamped_negative_store :
  let s := mkBoard DEFAULT_LANES ∅ (Some (-1)%Z) in
  let incoming := mkBoard DEFAULT_LANES ∅ None in
  ¬ (installs s incoming ↔ lastUpdated s = None ∨ lastUpdated s = Some 0%Z).
Proof.
  intros s incoming [Hto _].
  assert (installs s incoming) as Hin by reflexivity.
  destruct (Hto Hin) as [? | ?]; discriminate.
Qed.

(** ** Fine-grained patches *)

Lemma or_now_truthy (t now : Z) : t ≠ 0%Z → or_now (Some t) now = t.
Proof. intros Ht. unfold or_now. by destruct (Z.eqb_spec t 0). Qed.

Lemma merge_idemp (it patch : gmap string value) :
  merge (merge it patch) patch = merge it patch.
Proof. unfold merge. by rewrite (assoc_L (∪)), (idemp_L (∪)). Qed.

(** Reading an id that is a key of [items] gives its card. *)
Lemma read_item_own (s : BoardState) (id : string) (it : gmap string value) :
  items s !! id = Some it → read_item s id = RObject it.
Proof. intros Hit. unfold read_item. by rewrite Hit. Qed.

(** What is read under a key of [items] is truthy. *)
Lemma js_truthy_own (s : BoardState) (id : string) :
  is_Some (items s !! id) → js_truthy (read_item s id) = true.
Proof. intros [it Hit]. by rewrite (read_item_own s id it). Qed.

(** With [Object.prototype] as the prototype of [items], an id is found
    exactly when it is a key of [items] or a name of [Object.prototype]. *)
Lemma js_truthy_plain (s : BoardState) (id : string) :
  items_proto s = None →
  js_truthy (read_item s id) = true ↔
  is_Some (items s !! id) ∨ id ∈ Object_prototype.
Proof.
  intros Hproto. unfold read_item. rewrite Hproto. simpl.
  destruct (items s !! id) as [it |] eqn:Hit; simpl.
  { split; [by left; eexists | done]. }
  case_bool_decide as Hp.
  { subst id. simpl. split; [intros _; right | done].
    apply (bool_decide_unpack _). reflexivity. }
  case_bool_decide as Hin; simpl.
  - split; [by right | done].
  - split; [done |]. intros [[? ?] | ?]; done.
Qed.

(** A write under a key of [items] replaces its card. *)
Lemma assign_item_own (s : BoardState) (id : string) (card : gmap string value)
    (t : Z) :
  is_Some (items s !! id) →
  assign_item s id card t =
    mkState (lanes s) (<[id := card]> (items s)) (Some t) (items_proto s).
Proof.
  intros [it Hit]. unfold assign_item.
  rewrite (bool_decide_eq_false_2 (items s !! id = None)) by by rewrite Hit.
  by rewrite andb_false_r.
Qed.

(** A write to [items] leaves the lanes alone and sets the stamp. *)
Lemma assign_item_lanes (s : BoardState) (id : string) (card : gmap string value)
    (t : Z) :
  lanes (assign_item s id card t) = lanes s.
Proof. unfold assign_item. by case_match. Qed.

Lemma assign_item_lastUpdated (s : BoardState) (id : string)
    (card : gmap string value) (t : Z) :
  lastUpdated (assign_item s id card t) = Some t.
Proof. unfold assign_item. by case_match. Qed.

(** A write to [items] makes or replaces the key it names, or none. *)
Lemma assign_item_items (s : BoardState) (id : string) (card : gmap string value)
    (t : Z) :
  items (assign_item s id card t) = <[id := card]> (items s) ∨
  items (assign_item s id card t) = items s ∧ id = "__proto__" ∧
  items s !! id = None.
Proof.
  unfold assign_item. case_match eqn:Hc; simpl; [right | by left].
  apply andb_prop in Hc as [Hc _]. apply andb_prop in Hc as [Hc1 Hc2].
  by apply bool_decide_eq_true_1 in Hc1, Hc2.
Qed.

(** The guard of [item:patch] passed. *)
Lemma item_patch_found (now : Z) (s : BoardState) (m : PatchMsg)
    (id : string) (patch : gmap string value) :
  truthy (pm_id m) = Some id → pm_patch m = Some patch →
  js_truthy (read_item s id) = true →
  item_patch now s m =
    (assign_item s id (merge (own_enumerable (read_item s id)) patch)
                 (or_now (pm_mtime m) now),
     [ToOthers (item_patch_apply_ev
                  (mkPatchApply id patch (Some (or_now (pm_mtime m) now))))]).
Proof. intros Hid Hp Hit. unfold item_patch. by rewrite Hid, Hp, Hit. Qed.

(** The guard of [item:patch] passed on a key of [items]. *)
Lemma item_patch_applied (now : Z) (s : BoardState) (m : PatchMsg)
    (id : string) (patch it : gmap string value) :
  truthy (pm_id m) = Some id → pm_patch m = Some patch → items s !! id = Some it →
  item_patch now s m =
    (mkState (lanes s) (<[id := merge it patch]> (items s))
             (Some (or_now (pm_mtime m) now)) (items_proto s),
     [ToOthers (item_patch_apply_ev
                  (mkPatchApply id patch (Some (or_now (pm_mtime m) now))))]).
Proof.
  intros Hid Hp Hit.
  rewrite (item_patch_found now s m id patch); [| done | done |].
  - by rewrite assign_item_own, (read_item_own s id it).
  - by apply js_truthy_own.
Qed.

(** The guard of [item:patch] stopped the handler. *)
Lemma item_patch_dropped (now : Z) (s : BoardState) (m : PatchMsg) :
  truthy (pm_id m) = None ∨ pm_patch m = None ∨
  (∃ id, truthy (pm_id m) = Some id ∧ js_truthy (read_item s id) = false) →
  item_patch now s m = (s, []).
Proof.
  unfold item_patch. intros [Hid | [Hp | (id & Hid & Hit)]].
  - by rewrite Hid.
  - rewrite Hp. by destruct (truthy (pm_id m)).
  - rewrite Hid, Hit. by destruct (pm_patch m).
Qed.

(** The guard depends on the message and the items only, not on the clock. *)
Lemma item_patch_cases (s : BoardState) (m : PatchMsg) :
  (∀ now, item_patch now s m = (s, [])) ∨
  (∃ id patch,
     truthy (pm_id m) = Some id ∧ pm_patch m = Some patch ∧
     js_truthy (read_item s id) = true).
Proof.
  destruct (truthy (pm_id m)) as [id |] eqn:Hid.
  - destruct (pm_patch m) as [patch |] eqn:Hp.
    + destruct (js_truthy (read_item s id)) eqn:Hit.
      * right. by exists id, patch.
      * left. intros now. apply item_patch_dropped. right. right. by exists id.
    + left. intros now. apply item_patch_dropped. by right; left.
  - left. intros now. apply item_patch_dropped. by left.
Qed.

Lemma truthy_Some (x : option string) (id : string) :
  truthy x = Some id → x = Some id ∧ id ≠ "".
Proof.
  unfold truthy. destruct x as [s |]; [| done].
  case_bool_decide; [done |]. by intros [= <-].
Qed.


(** C8 (as amended). For every state whose [items] has the key [id],
    handling the same [{id, patch, mtime}] twice yields the same lanes and
    the same items (hence the same item state) as handling it once, whatever
    the clock reads; when [mtime] is present and not 0 the whole state,
    [lastUpdated] included, is the same. *)
Theorem item_patch_twice (now1 now2 : Z) (s : BoardState) (m : PatchMsg)
    (id : string) :
  pm_id m = Some id → is_Some (items s !! id) →
  let once := (item_patch now1 s m).1 in
  let twice := (item_patch now2 once m).1 in
  items twice = items once ∧
  lanes twice = lanes once ∧
  (∀ t, pm_mtime m = Some t → t ≠ 0%Z → twice = once).
Proof.
  intros Hm [it Hit]. simpl.
  destruct (item_patch_cases s m) as [Hdrop | (id' & patch & Hid & Hp & _)].
  { rewrite (Hdrop now1). simpl. rewrite (Hdrop now2). done. }
  apply truthy_Some in Hid as Hid'. destruct Hid' as [Hid' _].
  rewrite Hm in Hid'. injection Hid' as <-.
  rewrite (item_patch_applied now1 s m id patch it) by done. simpl.
  rewrite (item_patch_applied now2 _ m id patch (merge it patch));
    [| done | done | apply lookup_insert_eq].
  simpl. rewrite merge_idemp, insert_insert_eq.
  split; [done | split; [done |]].
  intros t Ht Hne. rewrite Ht, !or_now_truthy by done. done.
Qed.

Lemma item_patch_twice_witness :
  let s := mkBoard (<["Unassigned" := ["I1"]]> DEFAULT_LANES)
                   {["I1" := {["callsign" := VStr "JBU123"]}]} (Some 1%Z) in
  let m := mkPatchMsg (Some "I1") (Some {["altitude" := VStr "FL350"]})
                      (Some 9%Z) in
  (item_patch 7 (item_patch 5 s m).1 m).1 = (item_patch 5 s m).1.
Proof.
  intros s m.
  destruct (item_patch_twice 5 7 s m "I1") as (_ & _ & Hsame).
  - reflexivity.
  - by eexists.
  - apply (Hsame 9%Z); [reflexivity | lia].
Defined.

(** C8 as stated fails on [lastUpdated]: a message whose [mtime] is 0
    (or is missing) is stamped with the clock at each handling, so the second
    handling moves [lastUpdated] from 5 to 7. *)
Lemma item_patch_twice_restamps :
  let s := mkBoard (<["Unassigned" := ["I1"]]> DEFAULT_LANES)
                   {["I1" := {["callsign" := VStr "JBU123"]}]} (Some 1%Z) in
  let m := mkPatchMsg (Some "I1") (Some {["altitude" := VStr "FL350"]})
                      (Some 0%Z) in
  let once := (item_patch 5 s m).1 in
  let twice := (item_patch 7 once m).1 in
  lastUpdated once = Some 5%Z ∧ lastUpdated twice = Some 7%Z ∧
  lastUpdated twice ≠ lastUpdated once.
Proof. vm_compute. repeat split; discriminate. Qed.

(** ** Lane moves *)

(** A lane that is a key of [lanes] is read as an array. *)
Lemma lane_readable_own (ls : gmap string (list string)) (k : string) :
  is_Some (ls !! k) → lane_readable ls k = true.
Proof. intros Hk. unfold lane_readable. by rewrite bool_decide_eq_true_2. Qed.


(** The guard of [lanes:move] passed and both lanes are read as arrays. *)
Lemma lanes_move_applied (now : Z) (s : BoardState) (m : MoveMsg)
    (id from to : string) :
  truthy (mv_id m) = Some id → truthy (mv_from m) = Some from →
  truthy (mv_to m) = Some to →
  lane_readable (lanes s) from = true → lane_readable (lanes s) to = true →
  lanes_move now s m =
    (mkState (<[to := place (mv_index m) id (lane_or_empty (lanes s) to)]>
                (<[from := without id (lane_or_empty (lanes s) from)]> (lanes s)))
             (items s) (Some (or_now (mv_mtime m) now)) (items_proto s),
     [ToOthers (lanes_move_apply_ev
                  (mkMoveApply id from to (mv_index m)
                               (Some (or_now (mv_mtime m) now))))]).
Proof.
  intros Hid Hf Ht Hrf Hrt. unfold lanes_move. by rewrite Hid, Hf, Ht, Hrf, Hrt.
Qed.


(** The guard of [lanes:move] stopped the handler, or the handler raised,
    or it went through. *)
Lemma lanes_move_cases (s : BoardState) (m : MoveMsg) :
  (∀ now, lanes_move now s m = (s, [])) ∨
  (∀ now, lanes_move now s m = (s, [Uncaught])) ∨
  (∃ id from to,
     truthy (mv_id m) = Some id ∧ truthy (mv_from m) = Some from ∧
     truthy (mv_to m) = Some to ∧
     lane_readable (lanes s) from = true ∧ lane_readable (lanes s) to = true).
Proof.
  unfold lanes_move.
  destruct (truthy (mv_id m)) as [id |]; [| by left].
  destruct (truthy (mv_from m)) as [from |]; [| by left].
  destruct (truthy (mv_to m)) as [to |]; [| by left].
  destruct (lane_readable (lanes s) from) eqn:Hrf; [| by right; left].
  destruct (lane_readable (lanes s) to) eqn:Hrt; [| by right; left].
  right. right. by exists id, from, to.
Qed.

(** ** The logical clock *)

(** C9 (as amended). A message that mutates the store and is broadcast
    leaves [lastUpdated] as follows: an accepted coarse update installs the
    payload, whose stamp is at least the prior one; an applied item patch or
    lane move sets [lastUpdated] to the message's [mtime], or to the clock
    reading when [mtime] is missing or 0, without comparing it to the prior
    value, so the clock does not go back exactly when that value is at
    least the prior stamp. *)
Theorem lastUpdated_after_mutation (now : Z) (s : BoardState) (msg : message) :
  broadcasts (handle now s msg).2 = true →
  let s' := (handle now s msg).1 in
  match msg with
  | BoardPull => s' = s
  | BoardUpdate incoming => s' = incoming ∧ (stamp s ≤ stamp s')%Z
  | ItemPatch m =>
      lastUpdated s' = Some (or_now (pm_mtime m) now) ∧
      ((stamp s ≤ stamp s')%Z ↔ (stamp s ≤ or_now (pm_mtime m) now)%Z)
  | LanesMove m =>
      lastUpdated s' = Some (or_now (mv_mtime m) now) ∧
      ((stamp s ≤ stamp s')%Z ↔ (stamp s ≤ or_now (mv_mtime m) now)%Z)
  end.
Proof.
  destruct msg as [| incoming | m | m]; simpl.
  - done.
  - destruct (board_update_cases s incoming) as [[Hle Hin] | [_ Hrej]].
    + unfold installs in Hin. rewrite Hin. done.
    + unfold rejects in Hrej. rewrite Hrej. done.
  - destruct (item_patch_cases s m) as [Hdrop | (id & patch & Hid & Hp & Hit)].
    + rewrite (Hdrop now). done.
    + rewrite (item_patch_found now s m id patch) by done. intros _.
      cbn [fst]. unfold stamp. by rewrite assign_item_lastUpdated.
  - destruct (lanes_move_cases s m)
      as [Hdrop | [Hraise | (id & from & to & Hid & Hf & Ht & Hrf & Hrt)]].
    + rewrite (Hdrop now). done.
    + rewrite (Hraise now). done.
    + rewrite (lanes_move_applied now s m id from to) by done. done.
Qed.

Lemma lastUpdated_after_mutation_witness :
  let s := mkBoard (<["Unassigned" := ["I1"]]> DEFAULT_LANES)
                   {["I1" := {["callsign" := VStr "JBU123"]}]} (Some 100%Z) in
  let m := mkMoveMsg (Some "I1") (Some "Unassigned") (Some "Piarco")
                     (Some 0%Z) (Some 250%Z) in
  lastUpdated (handle 300 s (LanesMove m)).1 = Some 250%Z.
Proof.
  intros s m.
  destruct (lastUpdated_after_mutation 300 s (LanesMove m)) as [Hclock _];
    [reflexivity | exact Hclock].
Defined.

(** C9 as stated fails: an [item:patch] carrying [mtime = 1] is applied
    and broadcast by a store whose [lastUpdated] is 100, and moves the clock
    back to 1. *)
Lemma item_patch_moves_clock_back :
  let s := mkBoard (<["Unassigned" := ["I1"]]> DEFAULT_LANES)
                   {["I1" := {["callsign" := VStr "JBU123"]}]} (Some 100%Z) in
  let m := mkPatchMsg (Some "I1") (Some {["altitude" := VStr "FL350"]})
                      (Some 1%Z) in
  broadcasts (handle 500 s (ItemPatch m)).2 = true ∧
  lastUpdated (handle 500 s (ItemPatch m)).1 = Some 1%Z ∧
  ¬ (stamp (handle 500 s (ItemPatch m)).1 >= stamp s)%Z.
Proof.
  intros s m. split; [reflexivity | split; [reflexivity |]].
  assert (stamp (handle 500 s (ItemPatch m)).1 = 1%Z) as -> by reflexivity.
  assert (stamp s = 100%Z) as -> by reflexivity.
  lia.
Qed.

(** ** Lists of ids *)

Lemma elem_of_without (id x : string) (arr : list string) :
  x ∈ without id arr ↔ x ≠ id ∧ x ∈ arr.
Proof. unfold without. by rewrite list_elem_of_filter. Qed.

Lemma without_not_elem (id : string) (arr : list string) : id ∉ without id arr.
Proof. rewrite elem_of_without. by intros [? _]. Qed.

Lemma without_absent (id : string) (arr : list string) :
  id ∉ arr → without id arr = arr.
Proof.
  unfold without. induction arr as [| x arr IH]; [done |].
  rewrite not_elem_of_cons. intros [Hne Hnotin].
  rewrite filter_cons_True by done. by rewrite IH.
Qed.

Lemma place_none (id : string) (arr : list string) : place None id arr = id :: arr.
Proof. done. Qed.

Lemma place_decompose (index : option Z) (id : string) (arr : list string) :
  ∃ pos : nat, (pos ≤ length arr)%nat ∧
    place index id arr = take pos arr ++ id :: drop pos arr ∧
    match index with
    | None => pos = 0
    | Some i =>
        ((0 ≤ i ≤ Z.of_nat (length arr))%Z → pos = Z.to_nat i) ∧
        ((Z.of_nat (length arr) < i)%Z → pos = length arr) ∧
        ((i < 0)%Z → pos = Z.to_nat (Z.of_nat (length arr) + i))
    end.
Proof.
  destruct index as [i |]; simpl.
  - exists (splice_start i (length arr)). unfold splice, splice_start.
    destruct (Z.ltb_spec i 0); (split; [lia | split; [done | lia]]).
  - exists 0. split; [lia | done].
Qed.

Lemma elem_of_place (index : option Z) (id x : string) (arr : list string) :
  x ∈ place index id arr ↔ x = id ∨ x ∈ arr.
Proof.
  destruct (place_decompose index id arr) as (pos & _ & -> & _).
  rewrite elem_of_app, elem_of_cons.
  assert (x ∈ arr ↔ x ∈ take pos arr ∨ x ∈ drop pos arr) as ->
    by (by rewrite <- elem_of_app, take_drop).
  tauto.
Qed.




(** A move out of a lane named [constructor], which is no key of [lanes]:
    the handler raises, the state stays and nothing is sent. *)
Example lanes_move_inherited_name :
  let s := mkBoard DEFAULT_LANES ∅ (Some 1%Z) in
  let m := mkMoveMsg (Some "X") (Some "constructor") (Some "Piarco")
                     None (Some 2%Z) in
  lanes_move 3 s m = (s, [Uncaught]).
Proof. by vm_compute. Qed.

(** The move of the specification's example: [X] from [A = [X, Y]] to
    [B = [Z]] at index 0 gives [A = [Y]] and [B = [X, Z]]. *)
Example lanes_move_example :
  let s := mkBoard (<["A" := ["X"; "Y"]]> (<["B" := ["Z"]]> ∅)) ∅ (Some 1%Z) in
  let m := mkMoveMsg (Some "X") (Some "A") (Some "B") (Some 0%Z) (Some 2%Z) in
  lanes (lanes_move 3 s m).1 = <["A" := ["Y"]]> (<["B" := ["X"; "Z"]]> ∅).
Proof. by vm_compute. Qed.


(** ** Ids over all lanes *)

Lemma elem_of_lane_ids (ls : gmap string (list string)) (id : string) :
  id ∈ lane_ids ls ↔ ∃ k arr, ls !! k = Some arr ∧ id ∈ arr.
Proof.
  unfold lane_ids. rewrite elem_of_union_list. split.
  - intros (X & HX & Hid). apply list_elem_of_fmap in HX as (arr & -> & Harr).
    apply list_elem_of_fmap in Harr as ([k arr'] & -> & Hk).
    apply elem_of_map_to_list in Hk. exists k, arr'.
    split; [done |]. by apply elem_of_list_to_set in Hid.
  - intros (k & arr & Hk & Hid). exists (list_to_set arr). split.
    + apply list_elem_of_fmap. exists arr. split; [done |].
      apply list_elem_of_fmap. exists (k, arr). split; [done |].
      by apply elem_of_map_to_list.
    + by apply elem_of_list_to_set.
Qed.

(** ** References to unknown ids and lanes *)



(** An [item:patch] for the id [constructor], which is no key of [items]:
    the guard finds the method every object inherits, so the patch is
    stored under a new key, stamped and broadcast. *)
Example item_patch_inherited_name :
  let s := mkBoard DEFAULT_LANES ∅ (Some 5%Z) in
  let patch := {["altitude" := VStr "FL350"]} in
  item_patch 9 s (mkPatchMsg (Some "constructor") (Some patch) (Some 8%Z)) =
    (mkBoard DEFAULT_LANES {["constructor" := patch]} (Some 8%Z),
     [ToOthers (item_patch_apply_ev (mkPatchApply "constructor" patch (Some 8%Z)))]).
Proof. by vm_compute. Qed.

(** An [item:patch] for the id [__proto__] is stored as the prototype of
    [items]: no key is added, and the fields of the patch are found under
    their names from then on. *)
Example item_patch_proto_name :
  let s := mkBoard DEFAULT_LANES ∅ (Some 5%Z) in
  let patch := {["altitude" := VStr "FL350"]} in
  let s' := (item_patch 9 s (mkPatchMsg (Some "__proto__") (Some patch) (Some 8%Z))).1 in
  s' = mkState DEFAULT_LANES ∅ (Some 8%Z) (Some patch) ∧
  read_item s' "altitude" = RValue (VStr "FL350") ∧
  items (item_patch 9 s' (mkPatchMsg (Some "altitude") (Some ∅) (Some 8%Z))).1
    = {["altitude" := indexed (chars "FL350")]}.
Proof. by vm_compute. Qed.


(** [lanes:move:apply] raises exactly when one of the two lanes is not a
    key of the mirror's [lanes]. *)
Lemma lanes_move_apply_raises_iff (now : Z) (prev : BoardState) (m : MoveApply) :
  lanes_move_apply now prev m = TypeError ↔
  lanes prev !! ma_from m = None ∨ lanes prev !! ma_to m = None.
Proof.
  unfold lanes_move_apply, move_in_mirror.
  destruct (lanes prev !! ma_from m) as [fromLane |]; [| by split; auto].
  destruct (lanes prev !! ma_to m) as [toLane |]; [| by split; auto].
  split; [done | by intros [? | ?]].
Qed.

(** [item:patch:apply] has no guard: the id of the message is a key of the
    mirror's [items] afterwards, whether it was one before or not. *)
Lemma item_patch_apply_creates (now : Z) (prev : BoardState) (m : PatchApply) :
  items prev !! pa_id m = None →
  ∃ next, item_patch_apply now prev m = Done next ∧
          items next !! pa_id m = Some (pa_patch m).
Proof.
  intros Hnone. eexists. split; [done |]. simpl.
  rewrite lookup_insert_eq, Hnone. simpl. unfold merge.
  by rewrite (right_id_L ∅ (∪)).
Qed.

(** C5 fails on the code. On the mirror a client starts with, a
    [lanes:move:apply] naming a lane that is not a key of [lanes] raises a
    [TypeError], and an [item:patch:apply] for an id that is not a key of
    [items] adds an item made of the patch alone; the server's handlers guard
    both cases ([lanes[from] || []] and [!boardState.items[id]]). *)
Theorem reconciler_mishandles_unknown_references :
  let mirror := mkBoard DEFAULT_LANES ∅ (Some 5%Z) in
  let move := mkMoveApply "I1" "San Juan" "Piarco" None (Some 8%Z) in
  let patch := mkPatchApply "I1" {["altitude" := VStr "FL350"]} (Some 8%Z) in
  receive 9 mirror (lanes_move_apply_ev move) = TypeError ∧
  (lanes_move 9 mirror
     (mkMoveMsg (Some "I1") (Some "San Juan") (Some "Piarco") None (Some 8%Z))).1
    = mkBoard (<["Piarco" := ["I1"]]> (<["San Juan" := []]> DEFAULT_LANES))
              ∅ (Some 8%Z) ∧
  receive 9 mirror (item_patch_apply_ev patch)
    = Done (mkBoard DEFAULT_LANES {["I1" := {["altitude" := VStr "FL350"]}]}
                    (Some 8%Z)) ∧
  item_patch 9 mirror
     (mkPatchMsg (Some "I1") (Some {["altitude" := VStr "FL350"]}) (Some 8%Z))
    = (mirror, []).
Proof. intros mirror move patch. repeat split; by vm_compute. Qed.

(** ** Referential integrity *)

Lemma ref_integrity_iff (s : BoardState) :
  ref_integrity s ↔
  ∀ id, (∃ k arr, lanes s !! k = Some arr ∧ id ∈ arr) ↔ is_Some (items s !! id).
Proof.
  unfold ref_integrity. rewrite set_eq.
  by setoid_rewrite elem_of_lane_ids; setoid_rewrite elem_of_dom.
Qed.

Lemma boardState_init_integrity (now : Z) : ref_integrity (boardState_init now).
Proof.
  apply ref_integrity_iff. intros id. simpl. split.
  - intros (k & arr & Hk & Hid). exfalso. revert Hk. unfold DEFAULT_LANES.
    rewrite !lookup_insert, lookup_empty.
    repeat case_decide; intros [= <-]; by apply not_elem_of_nil in Hid.
  - rewrite lookup_empty. by intros [? ?].
Qed.

(** The ids of the lanes after a move: those before, and the moved id. *)
Lemma lane_ids_move (ls : gmap string (list string)) (index : option Z)
    (id from to x : string) :
  x ∈ lane_ids (<[to := place index id (lane_or_empty ls to)]>
                  (<[from := without id (lane_or_empty ls from)]> ls))
  ↔ x = id ∨ x ∈ lane_ids ls.
Proof.
  rewrite !elem_of_lane_ids. split.
  - intros (k & arr & Hk & Hx). revert Hk. rewrite lookup_insert.
    case_decide as Hto.
    + intros [= <-]. apply elem_of_place in Hx as [-> | Hx]; [by left |].
      right. unfold lane_or_empty in Hx.
      destruct (ls !! to) as [old |] eqn:Hold; [by exists to, old |].
      by apply not_elem_of_nil in Hx.
    + rewrite lookup_insert. case_decide as Hfrom.
      * intros [= <-]. apply elem_of_without in Hx as [_ Hx].
        right. unfold lane_or_empty in Hx.
        destruct (ls !! from) as [old |] eqn:Hold; [by exists from, old |].
        by apply not_elem_of_nil in Hx.
      * intros Hk. right. by exists k, arr.
  - intros Hx.
    assert (x = id ∨ x ≠ id ∧ ∃ k arr, ls !! k = Some arr ∧ x ∈ arr)
      as [-> | (Hne & k & arr & Hk & Hin)].
    { destruct (decide (x = id)); [by left | right]. by destruct Hx. }
    + exists to, (place index id (lane_or_empty ls to)).
      rewrite lookup_insert_eq, elem_of_place. auto.
    + destruct (decide (to = k)) as [-> | Hto].
      * exists k, (place index id (lane_or_empty ls k)).
        rewrite lookup_insert_eq, elem_of_place. unfold lane_or_empty.
        rewrite Hk. auto.
      * destruct (decide (from = k)) as [-> | Hfrom].
        -- exists k, (without id (lane_or_empty ls k)).
           rewrite lookup_insert_ne, lookup_insert_eq by done.
           rewrite elem_of_without. unfold lane_or_empty. rewrite Hk. auto.
        -- exists k, arr. by rewrite !lookup_insert_ne.
Qed.

(** A patch that passes [patches_a_key] and the guard of the handler names
    a key of [items]. *)
Lemma patches_a_key_own (s : BoardState) (m : PatchMsg) (id : string)
    (patch : gmap string value) :
  patches_a_key s m = true →
  truthy (pm_id m) = Some id → pm_patch m = Some patch →
  js_truthy (read_item s id) = true →
  ∃ it, items s !! id = Some it.
Proof.
  unfold patches_a_key. intros Hok Hid Hp Hfound.
  rewrite Hid, Hp, Hfound in Hok. simpl in Hok.
  by apply bool_decide_eq_true in Hok as [it Hit]; exists it.
Qed.

(** One message that passes [keeps_integrity] preserves the invariant. *)
Lemma handle_keeps_integrity (now : Z) (s : BoardState) (msg : message) :
  ref_integrity s → keeps_integrity s msg = true →
  ref_integrity (handle now s msg).1.
Proof.
  intros Hinv Hok. destruct msg as [| incoming | m | m]; simpl in *.
  - done.
  - unfold board_update. destruct (stamp s <=? stamp incoming)%Z; [| done].
    by apply bool_decide_eq_true in Hok.
  - destruct (item_patch_cases s m) as [Hdrop | (id & patch & Hid & Hp & Hfound)].
    + by rewrite (Hdrop now).
    + destruct (patches_a_key_own s m id patch Hok Hid Hp Hfound) as [it Hit].
      rewrite (item_patch_applied now s m id patch it) by done.
      unfold ref_integrity in *. simpl. rewrite dom_insert_L, Hinv.
      apply (elem_of_dom_2 (items s)) in Hit.
      apply set_eq. intros x. rewrite elem_of_union, elem_of_singleton.
      split; [auto | by intros [-> | ?]].
  - destruct (lanes_move_cases s m)
      as [Hdrop | [Hraise | (id & from & to & Hid & Hf & Ht & Hrf & Hrt)]].
    + by rewrite (Hdrop now).
    + by rewrite (Hraise now).
    + rewrite (lanes_move_applied now s m id from to) by done.
      rewrite Hid, Hf, Ht in Hok. apply bool_decide_eq_true in Hok.
      unfold ref_integrity in *. simpl. rewrite <- Hinv in *.
      apply set_eq. intros x. rewrite lane_ids_move.
      split; [by intros [-> | ?] | auto].
Qed.

Lemma run_keeps_integrity (trace : list (Z * message)) (s : BoardState) :
  ref_integrity s → admissible keeps_integrity s trace = true →
  ref_integrity (run s trace).
Proof.
  revert s. induction trace as [| [now msg] rest IH]; intros s Hinv Hadm; [done |].
  simpl in *. apply andb_true_iff in Hadm as [Hok Hrest].
  apply IH; [by apply handle_keeps_integrity | done].
Qed.

(** C1 (as amended). Every state the server reaches from the initial
    all-empty state, along a trace in which each coarse update that gets
    installed is itself referentially intact, each patch that gets applied
    names a key of [items] (not a name [boardState.items[id]] finds on the
    prototype) and each move that gets applied moves an id that is a key of
    [items], is referentially intact: the ids that occur in the lanes are
    exactly the keys of [items]. *)
Theorem referential_integrity_of_admissible_runs
    (t0 : Z) (trace : list (Z * message)) :
  admissible keeps_integrity (boardState_init t0) trace = true →
  let s := run (boardState_init t0) trace in
  lane_ids (lanes s) = dom (items s) ∧
  ∀ id, (∃ k arr, lanes s !! k = Some arr ∧ id ∈ arr) ↔ is_Some (items s !! id).
Proof.
  intros Hadm s.
  assert (ref_integrity s) as Hinv
    by (apply run_keeps_integrity; [apply boardState_init_integrity | done]).
  split; [done | by apply ref_integrity_iff].
Qed.

Lemma referential_integrity_of_admissible_runs_witness :
  let board := mkBoard (<["Unassigned" := ["I1"]]> DEFAULT_LANES)
                       {["I1" := {["callsign" := VStr "JBU123"]}]} (Some 20%Z) in
  let trace :=
    [(11%Z, BoardUpdate board);
     (12%Z, ItemPatch (mkPatchMsg (Some "I1")
                                  (Some {["altitude" := VStr "FL350"]}) (Some 21%Z)));
     (13%Z, LanesMove (mkMoveMsg (Some "I1") (Some "Unassigned") (Some "Piarco")
                                 (Some 0%Z) (Some 22%Z)))] in
  lane_ids (lanes (run (boardState_init 10) trace))
    = dom (items (run (boardState_init 10) trace)).
Proof.
  intros board trace.
  apply (referential_integrity_of_admissible_runs 10 trace).
  vm_compute. reflexivity.
Defined.

(** C1 as stated fails: the server applies and broadcasts a [lanes:move]
    for an id it has never seen, which leaves that id in lane [Piarco] while
    [items] is empty. *)
Lemma lanes_move_leaves_dangling_id :
  let m := mkMoveMsg (Some "ghost") (Some "Unassigned") (Some "Piarco")
                     None (Some 11%Z) in
  let s := run (boardState_init 10) [(12%Z, LanesMove m)] in
  broadcasts (handle 12 (boardState_init 10) (LanesMove m)).2 = true ∧
  lanes s !! "Piarco" = Some ["ghost"] ∧
  items s = ∅ ∧
  ¬ ref_integrity s.
Proof.
  intros m s. repeat split.
  intros Hinv.
  destruct (proj1 (proj1 (ref_integrity_iff s) Hinv "ghost")) as [it Hit].
  - exists "Piarco", ["ghost"]. split; [reflexivity | apply list_elem_of_here].
  - discriminate Hit.
Qed.

(** ** Counting an id in the lanes *)

Lemma count_id_nil (id : string) : count_id id [] = 0.
Proof. done. Qed.

Lemma count_id_cons (id x : string) (arr : list string) :
  count_id id (x :: arr) = (if decide (x = id) then 1 else 0) + count_id id arr.
Proof. unfold count_id. rewrite filter_cons. by case_decide. Qed.

Lemma count_id_app (id : string) (a b : list string) :
  count_id id (a ++ b) = count_id id a + count_id id b.
Proof. unfold count_id. by rewrite filter_app, length_app. Qed.

Lemma count_id_pos (id : string) (arr : list string) :
  id ∈ arr ↔ 0 < count_id id arr.
Proof.
  induction arr as [| x arr IH].
  { rewrite count_id_nil. split; [by intros ?%not_elem_of_nil | lia]. }
  rewrite elem_of_cons, count_id_cons, IH. case_decide as Hx.
  - split; [lia | auto].
  - split; [intros [-> | ?]; [done | lia] | auto].
Qed.

Lemma count_id_zero (id : string) (arr : list string) :
  id ∉ arr ↔ count_id id arr = 0.
Proof. rewrite count_id_pos. lia. Qed.

Lemma count_id_without_same (id : string) (arr : list string) :
  count_id id (without id arr) = 0.
Proof. apply count_id_zero, without_not_elem. Qed.

Lemma count_id_without_other (id j : string) (arr : list string) :
  j ≠ id → count_id j (without id arr) = count_id j arr.
Proof.
  intros Hne. unfold without. induction arr as [| x arr IH]; [done |].
  destruct (decide (x = id)) as [-> | Hx].
  - rewrite filter_cons_False by (by intros ?).
    by rewrite count_id_cons, IH, decide_False.
  - rewrite filter_cons_True by done. by rewrite !count_id_cons, IH.
Qed.

Lemma count_id_place (index : option Z) (id j : string) (arr : list string) :
  count_id j (place index id arr)
  = (if decide (id = j) then 1 else 0) + count_id j arr.
Proof.
  destruct (place_decompose index id arr) as (pos & _ & -> & _).
  rewrite count_id_app, count_id_cons.
  rewrite <- (take_drop pos arr) at 3. rewrite count_id_app. lia.
Qed.

Lemma occurrences_insert_fresh (id k : string) (arr : list string)
    (ls : gmap string (list string)) :
  ls !! k = None →
  occurrences id (<[k := arr]> ls) = count_id id arr + occurrences id ls.
Proof.
  intros Hk. unfold occurrences. rewrite map_fold_insert_L; [done | | done].
  intros. lia.
Qed.

Lemma occurrences_insert (id k : string) (arr : list string)
    (ls : gmap string (list string)) :
  occurrences id (<[k := arr]> ls)
  = count_id id arr + occurrences id (delete k ls).
Proof.
  rewrite <- insert_delete_eq. apply occurrences_insert_fresh, lookup_delete_eq.
Qed.

(** The occurrences over all lanes split into those in lane [k] and those
    in the other lanes. *)
Lemma occurrences_split (id k : string) (ls : gmap string (list string)) :
  occurrences id ls
  = count_id id (lane_or_empty ls k) + occurrences id (delete k ls).
Proof.
  unfold lane_or_empty. destruct (ls !! k) as [arr |] eqn:Hk; simpl.
  - by rewrite <- occurrences_insert, insert_id.
  - by rewrite delete_id.
Qed.

Lemma occurrences_zero_iff (id : string) (ls : gmap string (list string)) :
  occurrences id ls = 0 ↔ ∀ k arr, ls !! k = Some arr → id ∉ arr.
Proof.
  induction ls as [| k arr ls Hk IH] using map_ind.
  - split; [by intros _ k arr; rewrite lookup_empty | done].
  - rewrite occurrences_insert_fresh by done. split.
    + intros Hsum k' arr'. rewrite lookup_insert. case_decide.
      * intros [= <-]. apply count_id_zero. lia.
      * apply IH. lia.
    + intros Hall.
      assert (count_id id arr = 0) as ->
        by (apply count_id_zero, (Hall k); apply lookup_insert_eq).
      apply IH. intros k' arr' Hk'. apply (Hall k').
      rewrite lookup_insert_ne; [done |]. by intros ->; rewrite Hk in Hk'.
Qed.

Lemma occurrences_pos (id : string) (ls : gmap string (list string)) :
  0 < occurrences id ls → ∃ k arr, ls !! k = Some arr ∧ id ∈ arr.
Proof.
  induction ls as [| k arr ls Hk IH] using map_ind.
  { unfold occurrences. rewrite map_fold_empty. lia. }
  rewrite occurrences_insert_fresh by done. intros Hpos.
  destruct (decide (0 < count_id id arr)) as [Hin | Hout].
  - exists k, arr. split; [apply lookup_insert_eq | by apply count_id_pos].
  - destruct IH as (k' & arr' & Hk' & Hin); [lia |].
    exists k', arr'. split; [| done].
    rewrite lookup_insert_ne; [done |]. by intros ->; rewrite Hk in Hk'.
Qed.

(** An id occurs once over all the lanes exactly when one lane holds it,
    once, and no other lane holds it. *)
Lemma occurrences_one_iff (id : string) (ls : gmap string (list string)) :
  occurrences id ls = 1 ↔
  ∃ k arr, ls !! k = Some arr ∧ count_id id arr = 1 ∧
           ∀ k' arr', k' ≠ k → ls !! k' = Some arr' → id ∉ arr'.
Proof.
  split.
  - intros Hone. destruct (occurrences_pos id ls) as (k & arr & Hk & Hin); [lia |].
    apply count_id_pos in Hin. exists k, arr.
    pose proof (occurrences_split id k ls) as Hsplit.
    unfold lane_or_empty in Hsplit. rewrite Hk in Hsplit. simpl in Hsplit.
    split; [done | split; [lia |]].
    intros k' arr' Hne Hk'.
    apply (proj1 (occurrences_zero_iff id (delete k ls))) with k'; [lia |].
    by rewrite lookup_delete_ne.
  - intros (k & arr & Hk & Hcount & Hothers).
    rewrite (occurrences_split id k). unfold lane_or_empty. rewrite Hk. simpl.
    rewrite Hcount.
    assert (occurrences id (delete k ls) = 0) as ->; [| done].
    apply occurrences_zero_iff. intros k' arr'. rewrite lookup_delete.
    case_decide; [done |]. by apply Hothers.
Qed.

(** ** Single-lane membership *)

Lemma single_lane_iff (s : BoardState) :
  single_lane s ↔
  ∀ id, is_Some (items s !! id) →
    ∃ k arr, lanes s !! k = Some arr ∧ count_id id arr = 1 ∧
             ∀ k' arr', k' ≠ k → lanes s !! k' = Some arr' → id ∉ arr'.
Proof.
  unfold single_lane, set_Forall.
  by setoid_rewrite elem_of_dom; setoid_rewrite occurrences_one_iff.
Qed.

Lemma boardState_init_single_lane (now : Z) : single_lane (boardState_init now).
Proof. unfold single_lane. simpl. rewrite dom_empty_L. apply set_Forall_empty. Qed.

(** Replacing lane [k] changes the count by the difference of the two
    sequences. *)
Lemma occurrences_replace (j k : string) (arr : list string)
    (ls : gmap string (list string)) :
  occurrences j (<[k := arr]> ls) + count_id j (lane_or_empty ls k)
  = count_id j arr + occurrences j ls.
Proof. rewrite occurrences_insert, (occurrences_split j k ls). lia. Qed.

Lemma occurrences_move (ls : gmap string (list string)) (index : option Z)
    (id from to j : string) :
  from ≠ to →
  occurrences j (<[to := place index id (lane_or_empty ls to)]>
                   (<[from := without id (lane_or_empty ls from)]> ls))
    + (if decide (id = j) then count_id j (lane_or_empty ls from) else 0)
  = (if decide (id = j) then 1 else 0) + occurrences j ls.
Proof.
  intros Hne.
  pose proof (occurrences_replace j to (place index id (lane_or_empty ls to))
                (<[from := without id (lane_or_empty ls from)]> ls)) as Hto.
  pose proof (occurrences_replace j from (without id (lane_or_empty ls from)) ls)
    as Hfrom.
  assert (lane_or_empty (<[from := without id (lane_or_empty ls from)]> ls) to
          = lane_or_empty ls to) as Hsame
    by (unfold lane_or_empty; by rewrite lookup_insert_ne).
  rewrite Hsame, count_id_place in Hto.
  destruct (decide (id = j)) as [<- | Hj].
  - rewrite count_id_without_same in Hfrom. lia.
  - rewrite count_id_without_other in Hfrom by done. lia.
Qed.

(** One message that passes [keeps_single_lane] preserves the invariant. *)
Lemma handle_keeps_single_lane (now : Z) (s : BoardState) (msg : message) :
  single_lane s → keeps_single_lane s msg = true →
  single_lane (handle now s msg).1.
Proof.
  intros Hinv Hok. destruct msg as [| incoming | m | m]; simpl in *.
  - done.
  - unfold board_update. destruct (stamp s <=? stamp incoming)%Z; [| done].
    by apply bool_decide_eq_true in Hok.
  - destruct (item_patch_cases s m) as [Hdrop | (id & patch & Hid & Hp & Hfound)].
    + by rewrite (Hdrop now).
    + destruct (patches_a_key_own s m id patch Hok Hid Hp Hfound) as [it Hit].
      rewrite (item_patch_applied now s m id patch it) by done.
      unfold single_lane, set_Forall in *. simpl. intros x.
      rewrite dom_insert_L, elem_of_union, elem_of_singleton.
      intros [-> | Hx]; apply Hinv; [by apply (elem_of_dom_2 _ _ it) | done].
  - destruct (lanes_move_cases s m)
      as [Hdrop | [Hraise | (id & from & to & Hid & Hf & Ht & Hrf & Hrt)]].
    + by rewrite (Hdrop now).
    + by rewrite (Hraise now).
    + rewrite (lanes_move_applied now s m id from to) by done.
      rewrite Hid, Hf, Ht in Hok. apply andb_true_iff in Hok as [Hne Hheld].
      apply bool_decide_eq_true in Hne. apply bool_decide_eq_true in Hheld.
      unfold single_lane, set_Forall in *. simpl. intros x Hx.
      pose proof (occurrences_move (lanes s) (mv_index m) id from to x Hne) as Hmv.
      pose proof (Hinv x Hx) as Hone.
      destruct (decide (id = x)) as [<- | Hxid]; [| lia].
      pose proof (proj1 (count_id_pos id _) (Hheld Hx)) as Hpos.
      pose proof (occurrences_split id from (lanes s)) as Hsplit. lia.
Qed.

Lemma run_keeps_single_lane (trace : list (Z * message)) (s : BoardState) :
  single_lane s → admissible keeps_single_lane s trace = true →
  single_lane (run s trace).
Proof.
  revert s. induction trace as [| [now msg] rest IH]; intros s Hinv Hadm; [done |].
  simpl in *. apply andb_true_iff in Hadm as [Hok Hrest].
  apply IH; [by apply handle_keeps_single_lane | done].
Qed.

(** C2 (as amended). Every state the server reaches from the initial
    all-empty state, along a trace in which each coarse update that gets
    installed has every item in exactly one lane, each patch that gets
    applied names a key of [items] (not a name [boardState.items[id]] finds
    on the prototype) and each move that gets applied names two different
    lanes and, when its id is a key of [items], names as [from] the lane
    holding that id, keeps every key of [items] in exactly one lane, once. *)
Theorem single_lane_membership_of_admissible_runs
    (t0 : Z) (trace : list (Z * message)) :
  admissible keeps_single_lane (boardState_init t0) trace = true →
  let s := run (boardState_init t0) trace in
  ∀ id, is_Some (items s !! id) →
    occurrences id (lanes s) = 1 ∧
    ∃ k arr, lanes s !! k = Some arr ∧ count_id id arr = 1 ∧
             ∀ k' arr', k' ≠ k → lanes s !! k' = Some arr' → id ∉ arr'.
Proof.
  intros Hadm s id Hid.
  assert (single_lane s) as Hinv
    by (apply run_keeps_single_lane; [apply boardState_init_single_lane | done]).
  split.
  - apply Hinv. by apply elem_of_dom.
  - by apply (proj1 (single_lane_iff s) Hinv).
Qed.

Lemma single_lane_membership_of_admissible_runs_witness :
  let board := mkBoard (<["Unassigned" := ["I1"; "I2"]]> DEFAULT_LANES)
                       {["I1" := {["callsign" := VStr "JBU123"]};
                         "I2" := {["callsign" := VStr "AAL45"]}]} (Some 20%Z) in
  let trace :=
    [(11%Z, BoardUpdate board);
     (12%Z, LanesMove (mkMoveMsg (Some "I1") (Some "Unassigned") (Some "Piarco")
                                 (Some 0%Z) (Some 22%Z)));
     (13%Z, ItemPatch (mkPatchMsg (Some "I1")
                                  (Some {["altitude" := VStr "FL350"]}) (Some 23%Z)))] in
  occurrences "I1" (lanes (run (boardState_init 10) trace)) = 1.
Proof.
  intros board trace.
  assert (admissible keeps_single_lane (boardState_init 10) trace = true) as Hadm
    by (vm_compute; reflexivity).
  assert (is_Some (items (run (boardState_init 10) trace) !! "I1")) as Hid
    by (eexists; reflexivity).
  exact (proj1 (single_lane_membership_of_admissible_runs 10 trace Hadm "I1" Hid)).
Defined.

(** C2 as stated fails: after a coarse update that puts item [I1] in lane
    [Unassigned], the server applies and broadcasts a move of [I1] whose
    [from] names another lane, which leaves [I1] in two lanes. *)
Lemma lanes_move_stale_from_duplicates :
  let board := mkBoard (<["Unassigned" := ["I1"]]> DEFAULT_LANES)
                       {["I1" := {["callsign" := VStr "JBU123"]}]} (Some 20%Z) in
  let m := mkMoveMsg (Some "I1") (Some "Piarco") (Some "Curacao")
                     None (Some 21%Z) in
  let s := run (boardState_init 10) [(11%Z, BoardUpdate board); (12%Z, LanesMove m)] in
  is_Some (items s !! "I1") ∧
  lanes s !! "Unassigned" = Some ["I1"] ∧
  lanes s !! "Curacao" = Some ["I1"] ∧
  occurrences "I1" (lanes s) = 2 ∧
  ¬ single_lane s.
Proof.
  intros board m s.
  assert (is_Some (items s !! "I1")) as HI1 by (by eexists).
  repeat split; [done |].
  intros Hinv. assert (occurrences "I1" (lanes s) = 1) as Hone
    by (by apply Hinv, elem_of_dom).
  by vm_compute in Hone.
Qed.

(** What the handler does when [from] and [to] name the same lane: the
    entry written for [to] overrides the filtered one written for [from], so
    the id is inserted without being removed. *)
Example lanes_move_same_lane :
  let s := mkBoard (<["Unassigned" := ["I1"; "I2"]]> DEFAULT_LANES)
                   {["I1" := {["callsign" := VStr "JBU123"]};
                     "I2" := {["callsign" := VStr "AAL45"]}]} (Some 20%Z) in
  let m := mkMoveMsg (Some "I1") (Some "Unassigned") (Some "Unassigned")
                     (Some 1%Z) (Some 21%Z) in
  lanes (lanes_move 12 s m).1 !! "Unassigned" = Some ["I1"; "I1"; "I2"].
Proof. reflexivity. Qed.

(** ** Formatting: digits only, bounded, stable *)

Lemma digits_all_digits (s : string) : all_digits (digits s) = true.
Proof.
  induction s as [| c rest IH]; [done |]. simpl.
  destruct (is_digit c) eqn:Hc; [| done]. simpl. by rewrite Hc.
Qed.

Lemma digits_fixed (s : string) : all_digits s = true → digits s = s.
Proof.
  induction s as [| c rest IH]; [done |]. simpl.
  intros [Hc Hrest]%andb_true_iff. rewrite Hc. by rewrite IH.
Qed.

Lemma digits_fixed_inv (s : string) : digits s = s → all_digits s = true.
Proof. intros <-. apply digits_all_digits. Qed.

Lemma digits_app (a b : string) : digits (a +:+ b) = digits a +:+ digits b.
Proof.
  induction a as [| c rest IH]; [done |]. simpl.
  destruct (is_digit c); simpl; by rewrite IH.
Qed.

Lemma slice0_length (n : nat) (s : string) : String.length (slice0 n s) ≤ n.
Proof.
  revert s. induction n as [| n IH]; intros [| c rest]; simpl; try lia.
  specialize (IH rest). lia.
Qed.

Lemma slice0_short (n : nat) (s : string) : String.length s ≤ n → slice0 n s = s.
Proof.
  revert s. induction n as [| n IH]; intros [| c rest]; simpl; try done; try lia.
  intros Hlen. rewrite IH; [done | lia].
Qed.

Lemma slice0_fixed_inv (n : nat) (s : string) : slice0 n s = s → String.length s ≤ n.
Proof. intros <-. apply slice0_length. Qed.

Lemma slice0_all_digits (n : nat) (s : string) :
  all_digits s = true → all_digits (slice0 n s) = true.
Proof.
  revert s. induction n as [| n IH]; intros [| c rest]; simpl; try done.
  intros [Hc Hrest]%andb_true_iff. rewrite Hc. by apply IH.
Qed.

Lemma slice0_app_full (n : nat) (a b : string) :
  n ≤ String.length a → slice0 n (a +:+ b) = slice0 n a.
Proof.
  revert a. induction n as [| n IH]; intros [| c rest]; simpl; try done; try lia.
  intros Hlen. rewrite IH; [done | lia].
Qed.

Lemma slice0_empty_iff (n : nat) (s : string) :
  slice0 (S n) s = "" ↔ s = "".
Proof. destruct s; simpl; split; congruence. Qed.

(** The digits kept from an input that ends in more text than the field
    holds. *)
Lemma slice0_digits_app (n : nat) (s extra : string) :
  n ≤ String.length (digits s) →
  slice0 n (digits (s +:+ extra)) = slice0 n (digits s).
Proof. intros Hlen. rewrite digits_app. by apply slice0_app_full. Qed.

(** X1. [fmtHHMM] keeps at most four characters, all digits; the values it
    leaves as they are are exactly the strings of at most four digits, so
    formatting twice is formatting once; digits typed after the fourth are
    ignored. *)
Theorem fmtHHMM_shape (input : string) :
  all_digits (fmtHHMM input) = true ∧
  String.length (fmtHHMM input) ≤ 4 ∧
  (fmtHHMM input = input ↔ all_digits input = true ∧ String.length input ≤ 4) ∧
  fmtHHMM (fmtHHMM input) = fmtHHMM input ∧
  (∀ extra, 4 ≤ String.length (digits input) →
     fmtHHMM (input +:+ extra) = fmtHHMM input).
Proof.
  unfold fmtHHMM.
  assert (∀ s, all_digits s = true → String.length s ≤ 4 →
            slice0 4 (digits s) = s) as Hfix.
  { intros s Hd Hlen. rewrite digits_fixed by done. by apply slice0_short. }
  assert (all_digits (slice0 4 (digits input)) = true) as Hd
    by apply slice0_all_digits, digits_all_digits.
  pose proof (slice0_length 4 (digits input)) as Hlen.
  repeat split; try done.
  - by rewrite <- H.
  - by rewrite <- H.
  - by intros [? ?]; apply Hfix.
  - by apply Hfix.
  - intros extra Hfull. by apply slice0_digits_app.
Qed.

(** A value made of a letter prefix and digits reads back as its digits. *)
Lemma digits_prefixed (prefix d : string) :
  digits prefix = "" → all_digits d = true → digits (prefix +:+ d) = d.
Proof. intros Hp Hd. rewrite digits_app, Hp. simpl. by apply digits_fixed. Qed.

(** X2. [fmtFL] returns the empty string when the input has no digit and
    otherwise ["FL"] followed by the first one to three digits of the input;
    formatting a formatted value gives it back; digits typed after the third
    are ignored. *)
Theorem fmtFL_shape (input : string) :
  (fmtFL input = "" ↔ digits input = "") ∧
  (digits input ≠ "" →
     fmtFL input = "FL" +:+ slice0 3 (digits input) ∧
     1 ≤ String.length (slice0 3 (digits input)) ≤ 3 ∧
     all_digits (slice0 3 (digits input)) = true) ∧
  fmtFL (fmtFL input) = fmtFL input ∧
  (∀ extra, 3 ≤ String.length (digits input) →
     fmtFL (input +:+ extra) = fmtFL input).
Proof.
  unfold fmtFL.
  pose proof (slice0_length 3 (digits input)) as Hlen.
  assert (all_digits (slice0 3 (digits input)) = true) as Hd
    by apply slice0_all_digits, digits_all_digits.
  pose proof (slice0_empty_iff 2 (digits input)) as Hempty.
  repeat split.
  - case_bool_decide as Hd0; [by intros _; apply Hempty | done].
  - intros Hnone. rewrite bool_decide_eq_true_2; [done | by apply Hempty].
  - rewrite bool_decide_eq_false_2; [done |]. by rewrite Hempty.
  - destruct (slice0 3 (digits input)) eqn:Hs; [| simpl; lia].
    exfalso. by apply H, Hempty.
  - done.
  - done.
  - destruct (decide (slice0 3 (digits input) = "")) as [E | E].
    + rewrite (bool_decide_eq_true_2 _ E). reflexivity.
    + rewrite (bool_decide_eq_false_2 _ E).
      rewrite (digits_prefixed "FL") by done.
      rewrite (slice0_short 3 (slice0 3 (digits input))) by done.
      by rewrite (bool_decide_eq_false_2 _ E).
  - intros extra Hfull. by rewrite slice0_digits_app.
Qed.

(** X3. [fmtMach] returns the empty string when the input has no digit and
    otherwise ["M"] followed by the first one or two digits of the input;
    formatting a formatted value gives it back; digits typed after the
    second are ignored. *)
Theorem fmtMach_shape (input : string) :
  (fmtMach input = "" ↔ digits input = "") ∧
  (digits input ≠ "" →
     fmtMach input = "M" +:+ slice0 2 (digits input) ∧
     1 ≤ String.length (slice0 2 (digits input)) ≤ 2 ∧
     all_digits (slice0 2 (digits input)) = true) ∧
  fmtMach (fmtMach input) = fmtMach input ∧
  (∀ extra, 2 ≤ String.length (digits input) →
     fmtMach (input +:+ extra) = fmtMach input).
Proof.
  unfold fmtMach.
  pose proof (slice0_length 2 (digits input)) as Hlen.
  assert (all_digits (slice0 2 (digits input)) = true) as Hd
    by apply slice0_all_digits, digits_all_digits.
  pose proof (slice0_empty_iff 1 (digits input)) as Hempty.
  repeat split.
  - case_bool_decide as Hd0; [by intros _; apply Hempty | done].
  - intros Hnone. rewrite bool_decide_eq_true_2; [done | by apply Hempty].
  - rewrite bool_decide_eq_false_2; [done |]. by rewrite Hempty.
  - destruct (slice0 2 (digits input)) eqn:Hs; [| simpl; lia].
    exfalso. by apply H, Hempty.
  - done.
  - done.
  - destruct (decide (slice0 2 (digits input) = "")) as [E | E].
    + rewrite (bool_decide_eq_true_2 _ E). reflexivity.
    + rewrite (bool_decide_eq_false_2 _ E).
      rewrite (digits_prefixed "M") by done.
      rewrite (slice0_short 2 (slice0 2 (digits input))) by done.
      by rewrite (bool_decide_eq_false_2 _ E).
  - intros extra Hfull. by rewrite slice0_digits_app.
Qed.

(** ** Waypoints: valid, distinct, recovered from their text *)

Lemma elem_of_dedupe (seen toks : list string) (t : string) :
  t ∈ dedupe seen toks ↔ t ∈ toks ∧ t ∉ seen.
Proof.
  revert seen. induction toks as [| x rest IH]; intros seen; simpl.
  - split; [by intros ?%not_elem_of_nil | by intros [?%not_elem_of_nil _]].
  - case_bool_decide as Hx.
    + rewrite IH, elem_of_cons. split; [by intros [? ?]; auto |].
      intros [[-> | ?] ?]; [done | auto].
    + rewrite !elem_of_cons, IH, not_elem_of_cons. split.
      * intros [-> | (? & ? & ?)]; auto.
      * intros [[-> | ?] ?]; [by left |].
        destruct (decide (t = x)) as [-> | ?]; [by left | by right].
Qed.

Lemma dedupe_NoDup (seen toks : list string) : NoDup (dedupe seen toks).
Proof.
  revert seen. induction toks as [| x rest IH]; intros seen; simpl.
  - constructor.
  - case_bool_decide as Hx; [apply IH |]. constructor; [| apply IH].
    rewrite elem_of_dedupe, not_elem_of_cons. by intros (_ & ? & _).
Qed.

Lemma dedupe_already_distinct (seen toks : list string) :
  NoDup toks → (∀ t, t ∈ toks → t ∉ seen) → dedupe seen toks = toks.
Proof.
  revert seen. induction toks as [| x rest IH]; intros seen Hnd Hseen; [done |].
  apply NoDup_cons in Hnd as [Hx Hnd]. simpl.
  rewrite bool_decide_eq_false_2 by (apply Hseen, list_elem_of_here).
  f_equal. apply IH; [done |]. intros t Ht. rewrite not_elem_of_cons. split.
  - by intros ->.
  - apply Hseen. by apply list_elem_of_further.
Qed.

Lemma filter_all {A} (P : A → Prop) `{∀ x, Decision (P x)} (l : list A) :
  Forall P l → filter P l = l.
Proof.
  induction 1 as [| x l Hx Hl IH]; [done |].
  by rewrite filter_cons_True, IH.
Qed.

Lemma parseWaypointsFromRoute_NoDup (route : option string) :
  NoDup (parseWaypointsFromRoute route).
Proof.
  destruct route as [r |]; simpl; [| constructor].
  case_bool_decide; [constructor | apply dedupe_NoDup].
Qed.

Lemma parseWaypointsFromRoute_valid (route : option string) (t : string) :
  t ∈ parseWaypointsFromRoute route →
  2 ≤ String.length t ≤ 7 ∧ all_upper_or_digit t = true.
Proof.
  destruct route as [r |]; simpl; [| by intros ?%not_elem_of_nil].
  case_bool_decide; [by intros ?%not_elem_of_nil |].
  rewrite elem_of_dedupe, list_elem_of_filter. intros [[Hwp _] _].
  unfold is_waypoint in Hwp.
  apply andb_true_iff in Hwp as [[Hlo Hhi]%andb_true_iff Hchars].
  apply Nat.leb_le in Hlo, Hhi. done.
Qed.

(** X4. The waypoints read from a route are distinct and each is two to seven
    characters long, all capital letters or digits; a missing or empty route
    has none. *)
Theorem parseWaypointsFromRoute_shape (route : option string) :
  NoDup (parseWaypointsFromRoute route) ∧
  (∀ t, t ∈ parseWaypointsFromRoute route →
     2 ≤ String.length t ≤ 7 ∧ all_upper_or_digit t = true) ∧
  (route = None ∨ route = Some "" → parseWaypointsFromRoute route = []).
Proof.
  split; [apply parseWaypointsFromRoute_NoDup | split].
  - apply parseWaypointsFromRoute_valid.
  - intros [-> | ->]; done.
Qed.

Lemma upper_or_digit_not_space (c : ascii) :
  is_upper_or_digit c = true → is_space c = false ∧ Ascii.eqb c " " = false.
Proof.
  destruct c as [[] [] [] [] [] [] [] []]; vm_compute; intros; by try discriminate.
Qed.

Lemma String_append_cons (c : ascii) (a b : string) :
  String c a +:+ b = String c (a +:+ b).
Proof. done. Qed.

Lemma String_append_empty (s : string) : s +:+ "" = s.
Proof.
  induction s as [| c rest IH]; [done |]. by rewrite String_append_cons, IH.
Qed.

Lemma String_append_assoc (a b c : string) : (a +:+ b) +:+ c = a +:+ (b +:+ c).
Proof.
  induction a as [| x rest IH]; [done |]. by rewrite !String_append_cons, IH.
Qed.

(** A token without whitespace passes through [replace] unchanged. *)
Lemma replace_spaces_token (in_run : bool) (t s : string) :
  t ≠ "" → all_upper_or_digit t = true →
  replace_spaces in_run (t +:+ s) = t +:+ replace_spaces false s.
Proof.
  revert in_run. induction t as [| c rest IH]; intros in_run Hne Hall; [done |].
  simpl in Hall. apply andb_true_iff in Hall as [Hc Hrest].
  apply upper_or_digit_not_space in Hc as [Hc _].
  rewrite !String_append_cons. simpl. rewrite Hc. f_equal.
  destruct rest as [| c' rest']; [done |]. by apply IH.
Qed.

Lemma is_waypoint_token (t : string) :
  is_waypoint t = true → t ≠ "" ∧ all_upper_or_digit t = true.
Proof.
  unfold is_waypoint. intros [[Hlo _]%andb_true_iff Hall]%andb_true_iff.
  split; [| done]. intros ->. simpl in Hlo. discriminate.
Qed.

Lemma join_space_cons2 (t t' : string) (rest : list string) :
  join_space (t :: t' :: rest) = t +:+ " " +:+ join_space (t' :: rest).
Proof. done. Qed.

Lemma join_space_nonempty (t : string) (rest : list string) :
  t ≠ "" → join_space (t :: rest) ≠ "".
Proof.
  intros Hne. destruct rest as [| t' rest]; [done |].
  rewrite join_space_cons2. destruct t; [done |]. by rewrite String_append_cons.
Qed.

Lemma replace_spaces_join (in_run : bool) (toks : list string) :
  Forall (λ t, is_waypoint t = true) toks →
  replace_spaces in_run (join_space toks) = join_space toks.
Proof.
  intros Hall. revert in_run.
  induction Hall as [| t rest Ht Hrest IH]; intros in_run; [done |].
  apply is_waypoint_token in Ht as [Hne Hchars].
  destruct rest as [| t' rest'].
  - simpl. rewrite <- (String_append_empty t) at 1.
    rewrite replace_spaces_token by done. simpl. apply String_append_empty.
  - rewrite join_space_cons2, replace_spaces_token by done.
    f_equal. change (" " +:+ join_space (t' :: rest'))
      with (String " " (join_space (t' :: rest'))).
    simpl. by rewrite IH.
Qed.

Lemma trim_start_token (t s : string) :
  t ≠ "" → all_upper_or_digit t = true → trim_start (t +:+ s) = t +:+ s.
Proof.
  destruct t as [| c rest]; [done |]. intros _. simpl.
  intros [Hc _]%andb_true_iff.
  apply upper_or_digit_not_space in Hc as [Hc _].
  rewrite String_append_cons. simpl. by rewrite Hc.
Qed.

Lemma trim_end_token (t : string) :
  t ≠ "" → all_upper_or_digit t = true → trim_end t = t.
Proof.
  induction t as [| c rest IH]; [done |]. intros _. simpl.
  intros [Hc Hrest]%andb_true_iff.
  apply upper_or_digit_not_space in Hc as [Hc _].
  destruct rest as [| c' rest']; [simpl; by rewrite Hc |].
  rewrite IH by done. done.
Qed.

Lemma trim_end_app (a s : string) :
  trim_end s ≠ "" → trim_end (a +:+ s) = a +:+ trim_end s.
Proof.
  intros Hne. induction a as [| c rest IH]; [done |].
  rewrite !String_append_cons. simpl. rewrite IH.
  destruct (rest +:+ trim_end s) eqn:E; [| done].
  destruct rest; [done |]. by rewrite String_append_cons in E.
Qed.

Lemma trim_end_join (toks : list string) :
  Forall (λ t, is_waypoint t = true) toks →
  trim_end (join_space toks) = join_space toks.
Proof.
  induction 1 as [| t rest Ht Hrest IH]; [done |].
  apply is_waypoint_token in Ht as [Hne Hchars].
  destruct rest as [| t' rest']; [by apply trim_end_token |].
  rewrite join_space_cons2, <- String_append_assoc.
  rewrite trim_end_app; rewrite IH; [done |].
  apply join_space_nonempty.
  by apply Forall_cons in Hrest as [[? _]%is_waypoint_token _].
Qed.

Lemma split_space_token (t s : string) :
  all_upper_or_digit t = true →
  split_space (t +:+ " " +:+ s) = t :: split_space s.
Proof.
  induction t as [| c rest IH]; [done |]. simpl.
  intros [Hc Hrest]%andb_true_iff.
  apply upper_or_digit_not_space in Hc as [_ Hc].
  rewrite Hc. by rewrite IH.
Qed.

Lemma split_space_last (t : string) :
  all_upper_or_digit t = true → split_space t = [t].
Proof.
  induction t as [| c rest IH]; [done |]. simpl.
  intros [Hc Hrest]%andb_true_iff.
  apply upper_or_digit_not_space in Hc as [_ Hc]. rewrite Hc.
  by rewrite IH.
Qed.

Lemma split_space_join (t : string) (rest : list string) :
  Forall (λ t, is_waypoint t = true) (t :: rest) →
  split_space (join_space (t :: rest)) = t :: rest.
Proof.
  revert t. induction rest as [| t' rest' IH]; intros t Hall.
  - apply Forall_cons in Hall as [[_ ?]%is_waypoint_token _].
    by apply split_space_last.
  - apply Forall_cons in Hall as [[_ ?]%is_waypoint_token Hrest].
    rewrite join_space_cons2, split_space_token by done.
    by rewrite IH.
Qed.

(** X5. A list of distinct valid waypoints, written as text with single
    spaces, reads back as the same list. *)
Theorem parseWaypointsFromRoute_join_space (toks : list string) :
  NoDup toks →
  Forall (λ t, is_waypoint t = true) toks →
  parseWaypointsFromRoute (Some (join_space toks)) = toks.
Proof.
  intros Hnd Hall. destruct toks as [| t rest]; [done |].
  pose proof Hall as [[Hne Hchars]%is_waypoint_token _]%Forall_cons.
  unfold parseWaypointsFromRoute.
  rewrite bool_decide_eq_false_2 by (by apply join_space_nonempty).
  rewrite replace_spaces_join by done. unfold trim.
  assert (trim_start (join_space (t :: rest)) = join_space (t :: rest)) as ->.
  { destruct rest as [| t' rest'].
    - simpl. rewrite <- (String_append_empty t). by apply trim_start_token.
    - rewrite join_space_cons2. by apply trim_start_token. }
  rewrite trim_end_join, split_space_join by done.
  rewrite (filter_all (λ t, t ≠ "")).
  - rewrite (filter_all (λ t, is_waypoint t = true)) by done.
    apply dedupe_already_distinct; [done |].
    intros x _. apply not_elem_of_nil.
  - eapply Forall_impl; [exact Hall |]. intros x Hx.
    by apply is_waypoint_token in Hx as [? _].
Qed.

Lemma parseWaypointsFromRoute_join_space_witness :
  parseWaypointsFromRoute (Some (join_space ["DAWIN"; "UL465"; "SCAPA"]))
  = ["DAWIN"; "UL465"; "SCAPA"].
Proof.
  apply parseWaypointsFromRoute_join_space.
  - by apply (bool_decide_unpack (NoDup ["DAWIN"; "UL465"; "SCAPA"])).
  - by repeat constructor.
Defined.

(** ** What the server handlers leave alone *)

(** X6. Every handler emits at most one event.  [board:pull] answers the
    sender alone, with the stored state, and changes nothing; no other
    message is answered to its sender; the stored state changes only when
    the change is broadcast to the other connections. *)
Theorem handle_emission_discipline (now : Z) (s : BoardState) (msg : message) :
  length (handle now s msg).2 ≤ 1 ∧
  (msg = BoardPull → handle now s msg = (s, [ToSender (board_state_ev s)])) ∧
  (msg ≠ BoardPull → ∀ e, ToSender e ∉ (handle now s msg).2) ∧
  (broadcasts (handle now s msg).2 = false → (handle now s msg).1 = s).
Proof.
  destruct msg as [| incoming | m | m]; simpl.
  - repeat split; done.
  - destruct (board_update_cases s incoming) as [[_ Hin] | [_ Hrej]];
      [unfold installs in Hin; rewrite Hin | unfold rejects in Hrej; rewrite Hrej];
      simpl; repeat split; try done; try lia.
    + intros _ e [[=] | ?%not_elem_of_nil]%elem_of_cons. done.
    + intros _ e ?%not_elem_of_nil. done.
  - destruct (item_patch_cases s m) as [Hdrop | (id & patch & Hid & Hp & Hfound)].
    + rewrite (Hdrop now). simpl. repeat split; try done; try lia.
      intros _ e ?%not_elem_of_nil. done.
    + rewrite (item_patch_found now s m id patch) by done.
      cbn [fst snd]. repeat split; try done.
      intros _ e [[=] | ?%not_elem_of_nil]%elem_of_cons. done.
  - destruct (lanes_move_cases s m)
      as [Hdrop | [Hraise | (id & from & to & Hid & Hf & Ht & Hrf & Hrt)]].
    + rewrite (Hdrop now). simpl. repeat split; try done; try lia.
      intros _ e ?%not_elem_of_nil. done.
    + rewrite (Hraise now). simpl. repeat split; try done.
      intros _ e [[=] | ?%not_elem_of_nil]%elem_of_cons. done.
    + rewrite (lanes_move_applied now s m id from to) by done.
      simpl. repeat split; try done; try lia.
      intros _ e [[=] | ?%not_elem_of_nil]%elem_of_cons. done.
Qed.

Lemma item_patch_lanes (now : Z) (s : BoardState) (m : PatchMsg) :
  lanes (item_patch now s m).1 = lanes s.
Proof.
  destruct (item_patch_cases s m) as [Hdrop | (id & patch & Hid & Hp & Hfound)].
  - by rewrite (Hdrop now).
  - rewrite (item_patch_found now s m id patch) by done. apply assign_item_lanes.
Qed.

(** X7. [item:patch] never touches the lanes, never removes an item, and
    leaves every item other than the one named by the message as it was.
    When the id of the message is a key of [items], the keys of [items] and
    its prototype are the same afterwards.  When it is no key of [items],
    and [items] has [Object.prototype] as its prototype, the state is
    unchanged unless the id is a name of [Object.prototype]; for such a name
    other than [__proto__] a message with a patch adds the id to the keys of
    [items]. *)
Theorem item_patch_frame (now : Z) (s : BoardState) (m : PatchMsg) :
  let s' := (item_patch now s m).1 in
  lanes s' = lanes s ∧
  dom (items s) ⊆ dom (items s') ∧
  (∀ j, pm_id m ≠ Some j → items s' !! j = items s !! j) ∧
  (∀ id, pm_id m = Some id → is_Some (items s !! id) →
     dom (items s') = dom (items s) ∧ items_proto s' = items_proto s) ∧
  (∀ id, pm_id m = Some id → items s !! id = None → items_proto s = None →
     (id ∉ Object_prototype → s' = s) ∧
     (id ∈ Object_prototype → id ≠ "__proto__" → is_Some (pm_patch m) →
      dom (items s') = dom (items s) ∪ {[id]})).
Proof.
  simpl. split; [apply item_patch_lanes |].
  destruct (item_patch_cases s m) as [Hdrop | (id & patch & Hid & Hp & Hfound)].
  { rewrite (Hdrop now). simpl. split; [done |]. split; [done |].
    split; [done |]. intros id Hm Hnone Hproto. split; [done |].
    intros Hin Hne [patch Hp]. exfalso.
    assert (truthy (pm_id m) = Some id) as Hid.
    { rewrite Hm. unfold truthy. rewrite bool_decide_eq_false_2; [done |].
      intros ->. revert Hin. apply (bool_decide_unpack _). reflexivity. }
    assert (js_truthy (read_item s id) = true) as Hfound
      by (apply js_truthy_plain; [done | by right]).
    pose proof (Hdrop now) as Hnow.
    rewrite (item_patch_found now s m id patch) in Hnow by done.
    by injection Hnow. }
  rewrite (item_patch_found now s m id patch) by done. cbn [fst].
  apply truthy_Some in Hid as [Hid Hne].
  set (card := merge (own_enumerable (read_item s id)) patch).
  set (t := or_now (pm_mtime m) now).
  split; [| split; [| split]].
  - destruct (assign_item_items s id card t) as [-> | [-> _]]; [| done].
    rewrite dom_insert_L. intros x Hx. apply elem_of_union. by right.
  - intros j Hj.
    destruct (assign_item_items s id card t) as [-> | [-> _]]; [| done].
    rewrite lookup_insert_ne; [done |]. intros ->. by apply Hj.
  - intros id' Hm Hown. rewrite Hid in Hm. injection Hm as <-.
    rewrite assign_item_own by done. simpl. split; [| done].
    rewrite dom_insert_L. apply elem_of_dom in Hown.
    apply set_eq. intros x. rewrite elem_of_union, elem_of_singleton.
    split; [by intros [-> | ?] | auto].
  - intros id' Hm Hnone Hproto. rewrite Hid in Hm. injection Hm as <-. split.
    + intros Hnotin. exfalso.
      apply (js_truthy_plain s id Hproto) in Hfound as [[? Hown] | Hin];
        [by rewrite Hnone in Hown | done].
    + intros _ Hnp _.
      destruct (assign_item_items s id card t) as [-> | (_ & ? & _)]; [| done].
      rewrite dom_insert_L. apply set_eq. intros x.
      rewrite !elem_of_union. tauto.
Qed.

(** X8. The shallow merge, field by field: after a patch is applied, a field
    the patch names has the patch's value and every other field of the item
    keeps the value it had. *)
Theorem item_patch_fields (now : Z) (s : BoardState) (m : PatchMsg)
    (id : string) (patch it : gmap string value) :
  truthy (pm_id m) = Some id →
  pm_patch m = Some patch →
  items s !! id = Some it →
  ∃ it', items (item_patch now s m).1 !! id = Some it' ∧
    dom it' = dom it ∪ dom patch ∧
    ∀ f, it' !! f = match patch !! f with
                     | Some v => Some v
                     | None => it !! f
                     end.
Proof.
  intros Hid Hp Hit. exists (merge it patch).
  rewrite (item_patch_applied now s m id patch it) by done. simpl.
  split; [apply lookup_insert_eq | split].
  - unfold merge. rewrite dom_union_L. apply set_eq. intros x.
    rewrite !elem_of_union. tauto.
  - intros f. unfold merge. destruct (patch !! f) as [v |] eqn:Hf.
    + by apply lookup_union_Some_l.
    + by apply lookup_union_r.
Qed.

Lemma item_patch_fields_witness :
  let s := mkBoard (<["Unassigned" := ["I1"]]> DEFAULT_LANES)
                   {["I1" := {["callsign" := VStr "JBU123"]}]} (Some 5%Z) in
  let m := mkPatchMsg (Some "I1") (Some {["altitude" := VStr "FL350"]}) (Some 8%Z) in
  ∃ it', items (item_patch 9 s m).1 !! "I1" = Some it' ∧
    dom it' = dom ({["callsign" := VStr "JBU123"]} : gmap string value)
              ∪ dom ({["altitude" := VStr "FL350"]} : gmap string value) ∧
    ∀ f, it' !! f =
         match ({["altitude" := VStr "FL350"]} : gmap string value) !! f with
         | Some v => Some v
         | None => ({["callsign" := VStr "JBU123"]} : gmap string value) !! f
         end.
Proof.
  intros s m.
  apply (item_patch_fields 9 s m "I1" {["altitude" := VStr "FL350"]}
           {["callsign" := VStr "JBU123"]}); reflexivity.
Defined.

Lemma without_without (id : string) (arr : list string) :
  without id (without id arr) = without id arr.
Proof. apply without_absent, without_not_elem. Qed.

Lemma without_app (id : string) (a b : list string) :
  without id (a ++ b) = without id a ++ without id b.
Proof. unfold without. apply filter_app. Qed.

Lemma without_place (index : option Z) (id : string) (arr : list string) :
  without id (place index id arr) = without id arr.
Proof.
  destruct (place_decompose index id arr) as (pos & _ & -> & _).
  rewrite without_app. unfold without at 2. rewrite filter_cons_False by (by intros ?).
  fold (without id (drop pos arr)). by rewrite <- without_app, take_drop.
Qed.

(** X9. [lanes:move] never touches the items and never drops a lane; in every
    lane the cards other than the moved one keep their places relative to
    each other; the only id it can bring into the lanes is the moved one. *)
Theorem lanes_move_frame (now : Z) (s : BoardState) (m : MoveMsg) :
  let s' := (lanes_move now s m).1 in
  items s' = items s ∧
  dom (lanes s) ⊆ dom (lanes s') ∧
  (∀ id, truthy (mv_id m) = Some id →
     (∀ k, without id (lane_or_empty (lanes s') k)
           = without id (lane_or_empty (lanes s) k)) ∧
     lane_ids (lanes s') ⊆ lane_ids (lanes s) ∪ {[id]}).
Proof.
  simpl.
  destruct (lanes_move_cases s m)
    as [Hdrop | [Hraise | (id & from & to & Hid & Hf & Ht & Hrf & Hrt)]].
  - rewrite (Hdrop now). simpl. repeat split; try done.
    intros x Hx. apply elem_of_union. by left.
  - rewrite (Hraise now). simpl. repeat split; try done.
    intros x Hx. apply elem_of_union. by left.
  - rewrite (lanes_move_applied now s m id from to) by done. simpl.
    split; [done | split].
    + rewrite !dom_insert_L. intros x Hx. rewrite !elem_of_union. auto.
    + intros id' Hid'. rewrite Hid in Hid'. injection Hid' as <-. split.
      * intros k. unfold lane_or_empty at 1. rewrite lookup_insert.
        case_decide as Hto; [subst k; simpl; apply without_place |].
        rewrite lookup_insert.
        case_decide as Hfrom; [subst k; simpl; apply without_without | done].
      * intros x Hx. apply lane_ids_move in Hx as [-> | Hx];
          apply elem_of_union; [right; by apply elem_of_singleton | by left].
Qed.

(** ** How messages compose *)

Lemma truthy_nonempty (x : string) : x ≠ "" → truthy (Some x) = Some x.
Proof. intros Hx. unfold truthy. by rewrite bool_decide_eq_false_2. Qed.

Lemma without_single (id : string) (l1 l2 : list string) :
  id ∉ l1 → id ∉ l2 → without id (l1 ++ id :: l2) = l1 ++ l2.
Proof.
  intros H1 H2. rewrite without_app. unfold without at 2.
  rewrite filter_cons_False by (by intros ?). fold (without id l2).
  by rewrite !without_absent.
Qed.

Lemma place_at (id : string) (l1 l2 : list string) :
  place (Some (Z.of_nat (length l1))) id (l1 ++ l2) = l1 ++ id :: l2.
Proof.
  simpl. unfold splice, splice_start.
  destruct (Z.ltb_spec (Z.of_nat (length l1)) 0); [lia |].
  rewrite length_app.
  replace (Z.to_nat (Z.min (Z.of_nat (length l1))
                           (Z.of_nat (length l1 + length l2))))
    with (length l1) by lia.
  by rewrite take_app_length, drop_app_length.
Qed.

(** X10. Moving a card to another lane and then back to the position it came
    from restores the lanes; the items are untouched throughout. *)
Theorem lanes_move_there_and_back
    (n1 n2 : Z) (s : BoardState) (id from to : string)
    (l1 l2 other : list string) (index : option Z) (t1 t2 : option Z) :
  id ≠ "" → from ≠ "" → to ≠ "" → from ≠ to →
  lanes s !! from = Some (l1 ++ id :: l2) → id ∉ l1 → id ∉ l2 →
  lanes s !! to = Some other → id ∉ other →
  let there := mkMoveMsg (Some id) (Some from) (Some to) index t1 in
  let back := mkMoveMsg (Some id) (Some to) (Some from)
                        (Some (Z.of_nat (length l1))) t2 in
  let s' := run s [(n1, LanesMove there); (n2, LanesMove back)] in
  lanes s' = lanes s ∧ items s' = items s.
Proof.
  intros Hid Hfrom Hto Hne Hlf H1 H2 Hlt Hother. simpl.
  rewrite (lanes_move_applied n1 s _ id from to);
    [| simpl; by apply truthy_nonempty ..
     | apply lane_readable_own; by eexists
     | apply lane_readable_own; by eexists].
  simpl.
  rewrite (lanes_move_applied n2 _ _ id to from);
    [| simpl; by apply truthy_nonempty ..
     | apply lane_readable_own; simpl; rewrite lookup_insert_eq; by eexists
     | apply lane_readable_own; simpl;
       rewrite lookup_insert_ne, lookup_insert_eq by done; by eexists].
  simpl. split; [| done].
  unfold lane_or_empty. rewrite Hlf, Hlt. simpl.
  rewrite lookup_insert_eq. simpl.
  rewrite lookup_insert_ne, lookup_insert_eq by done. simpl.
  rewrite without_place, (without_absent id other) by done.
  rewrite without_single by done.
  change (splice (Z.of_nat (length l1)) id (l1 ++ l2))
    with (place (Some (Z.of_nat (length l1))) id (l1 ++ l2)).
  rewrite place_at.
  apply map_eq. intros k.
  destruct (decide (from = k)) as [<- | Hk1]; [by rewrite lookup_insert_eq |].
  rewrite lookup_insert_ne by done.
  destruct (decide (to = k)) as [<- | Hk2]; [by rewrite lookup_insert_eq |].
  by rewrite !lookup_insert_ne.
Qed.

Lemma lanes_move_there_and_back_witness :
  let s := mkBoard (<["Unassigned" := ["I0"; "I1"; "I2"]]>
                      (<["Piarco" := ["I3"]]> DEFAULT_LANES)) ∅ (Some 5%Z) in
  let there := mkMoveMsg (Some "I1") (Some "Unassigned") (Some "Piarco")
                         None (Some 6%Z) in
  let back := mkMoveMsg (Some "I1") (Some "Piarco") (Some "Unassigned")
                        (Some 1%Z) (Some 7%Z) in
  let s' := run s [(6%Z, LanesMove there); (7%Z, LanesMove back)] in
  lanes s' = lanes s ∧ items s' = items s.
Proof.
  intros s.
  apply (lanes_move_there_and_back 6 7 s "I1" "Unassigned" "Piarco"
           ["I0"] ["I2"] ["I3"] None (Some 6%Z) (Some 7%Z));
    try done; try reflexivity.
  - by intros [[=] | ?%not_elem_of_nil]%elem_of_cons.
  - by intros [[=] | ?%not_elem_of_nil]%elem_of_cons.
  - by intros [[=] | ?%not_elem_of_nil]%elem_of_cons.
Defined.

(** X11. A local field edit reaches the other replicas: when the editing
    client, the server and a receiving client hold the same items and the
    edited card, whose id is not the empty string, is among them, then after
    [patchItem], the server's
    [item:patch] and the receiver's [item:patch:apply], all three hold the
    same items again, the card being the old one merged with the patch; the
    receiver's [lastUpdated] is the server's when the sender's clock reading
    is not 0. *)
Theorem patch_reaches_replicas
    (n1 n1' n2 n3 : Z) (sender server receiver : BoardState)
    (id : string) (patch it : gmap string value) :
  id ≠ "" →
  items server !! id = Some it →
  items sender = items server →
  items receiver = items server →
  let local := patchItem n1 n1' sender id patch in
  let handled := item_patch n2 server local.2 in
  ∃ e mirror,
    handled.2 = [ToOthers e] ∧
    receive n3 receiver e = Done mirror ∧
    items local.1 = items handled.1 ∧
    items mirror = items handled.1 ∧
    items handled.1 !! id = Some (merge it patch) ∧
    (n1' ≠ 0%Z → lastUpdated handled.1 = Some n1' ∧ lastUpdated mirror = Some n1').
Proof.
  intros Hid Hit Hsender Hreceiver. simpl.
  rewrite (item_patch_applied n2 server _ id patch it)
    by (try done; simpl; by apply truthy_nonempty).
  simpl. eexists _, _. split; [done |]. split; [done |]. simpl.
  rewrite Hsender, Hreceiver, Hit. simpl.
  split; [done | split; [done | split; [apply lookup_insert_eq |]]].
  intros Hclock. apply Z.eqb_neq in Hclock. rewrite Hclock.
  by rewrite Hclock.
Qed.

Lemma patch_reaches_replicas_witness :
  let board := mkBoard (<["Unassigned" := ["I1"]]> DEFAULT_LANES)
                       {["I1" := {["callsign" := VStr "JBU123"]}]} (Some 5%Z) in
  let patch : gmap string value := {["altitude" := VStr "FL350"]} in
  let local := patchItem 6 7 board "I1" patch in
  let handled := item_patch 8 board local.2 in
  ∃ e mirror,
    handled.2 = [ToOthers e] ∧
    receive 9 board e = Done mirror ∧
    items local.1 = items handled.1 ∧
    items mirror = items handled.1 ∧
    items handled.1 !! "I1"
      = Some (merge {["callsign" := VStr "JBU123"]} patch) ∧
    (7%Z ≠ 0%Z → lastUpdated handled.1 = Some 7%Z ∧ lastUpdated mirror = Some 7%Z).
Proof.
  intros board patch.
  apply (patch_reaches_replicas 6 7 8 9 board board board "I1" patch
           {["callsign" := VStr "JBU123"]}); done.
Defined.

(** X12. A drag across lanes reaches the other replicas: when the moving
    client, the server and a receiving client hold the same lanes, both
    lanes of the move are among them and neither the id of the card nor the
    name of a lane is the empty string, then after [moveItem], the server's
    [lanes:move] and the receiver's [lanes:move:apply], all three hold the
    same lanes again and nobody raises. *)
Theorem move_reaches_replicas
    (n1 n1' n2 n3 : Z) (sender server receiver : BoardState)
    (id from to : string) (index : option Z) :
  id ≠ "" → from ≠ "" → to ≠ "" →
  is_Some (lanes server !! from) →
  is_Some (lanes server !! to) →
  lanes sender = lanes server →
  lanes receiver = lanes server →
  let local := moveItem n1 n1' sender id from to index in
  let handled := lanes_move n2 server local.2 in
  ∃ mine e mirror,
    local.1 = Done mine ∧
    handled.2 = [ToOthers e] ∧
    receive n3 receiver e = Done mirror ∧
    lanes mine = lanes handled.1 ∧
    lanes mirror = lanes handled.1.
Proof.
  intros Hid Hfrom Hto [fromLane Hfl] [toLane Htl] Hsender Hreceiver. simpl.
  rewrite (lanes_move_applied n2 server _ id from to);
    [| simpl; by apply truthy_nonempty ..
     | apply lane_readable_own; by eexists
     | apply lane_readable_own; by eexists].
  simpl. unfold move_in_mirror. rewrite Hsender, Hfl, Htl.
  eexists _, _, _. split; [done |]. split; [done |]. simpl.
  unfold lanes_move_apply, move_in_mirror. simpl. rewrite Hreceiver, Hfl, Htl.
  split; [done |]. simpl. unfold lane_or_empty. by rewrite Hfl, Htl.
Qed.

Lemma move_reaches_replicas_witness :
  let board := mkBoard (<["Unassigned" := ["I1"; "I2"]]> DEFAULT_LANES)
                       ∅ (Some 5%Z) in
  let local := moveItem 6 7 board "I1" "Unassigned" "Piarco" None in
  let handled := lanes_move 8 board local.2 in
  ∃ mine e mirror,
    local.1 = Done mine ∧
    handled.2 = [ToOthers e] ∧
    receive 9 board e = Done mirror ∧
    lanes mine = lanes handled.1 ∧
    lanes mirror = lanes handled.1.
Proof.
  intros board.
  apply (move_reaches_replicas 6 7 8 9 board board board
           "I1" "Unassigned" "Piarco" None); try done; by eexists.
Defined.

(** [item:patch] keeps every key of [items]. *)
Lemma item_patch_keeps_keys (now : Z) (s : BoardState) (m : PatchMsg) (j : string) :
  is_Some (items s !! j) → is_Some (items (item_patch now s m).1 !! j).
Proof.
  intros Hj.
  destruct (item_patch_cases s m) as [Hdrop | (id & patch & Hid & Hp & Hfound)].
  - by rewrite (Hdrop now).
  - rewrite (item_patch_found now s m id patch) by done. cbn [fst].
    destruct (assign_item_items s id
                (merge (own_enumerable (read_item s id)) patch)
                (or_now (pm_mtime m) now)) as [-> | [-> _]]; [| done].
    rewrite lookup_insert. by case_decide.
Qed.

(** The items after a patch of a card that [items] holds. *)
Lemma items_after_item_patch (now : Z) (s : BoardState) (id : string)
    (patch : gmap string value) (mtime : option Z) :
  is_Some (items s !! id) →
  items (item_patch now s (mkPatchMsg (Some id) (Some patch) mtime)).1
  = if decide (id = "") then items s
    else alter (λ it, merge it patch) id (items s).
Proof.
  intros [it Hit]. case_decide as Hid.
  - rewrite item_patch_dropped; [done |]. left. subst id. reflexivity.
  - apply truthy_nonempty in Hid.
    rewrite (item_patch_applied now s _ id patch it) by done. cbn [fst items].
    apply map_eq. intros j. rewrite lookup_insert, (lookup_alter (M:=gmap string)).
    case_decide; [by rewrite Hit | done].
Qed.

(** X13. Two field edits of cards the store holds that address different
    cards, or different fields of one card, commute: whichever the server
    handles first, it ends with the same items and the same lanes. *)
Theorem item_patches_commute
    (n1 n2 n1' n2' : Z) (s : BoardState) (id1 id2 : string)
    (p1 p2 : gmap string value) (t1 t2 : option Z) :
  is_Some (items s !! id1) → is_Some (items s !! id2) →
  id1 ≠ id2 ∨ dom p1 ## dom p2 →
  let m1 := ItemPatch (mkPatchMsg (Some id1) (Some p1) t1) in
  let m2 := ItemPatch (mkPatchMsg (Some id2) (Some p2) t2) in
  items (run s [(n1, m1); (n2, m2)]) = items (run s [(n1', m2); (n2', m1)]) ∧
  lanes (run s [(n1, m1); (n2, m2)]) = lanes (run s [(n1', m2); (n2', m1)]).
Proof.
  intros Hown1 Hown2 Hsep. simpl. split.
  - rewrite (items_after_item_patch n2 _ id2) by by apply item_patch_keeps_keys.
    rewrite (items_after_item_patch n2' _ id1) by by apply item_patch_keeps_keys.
    rewrite !items_after_item_patch by done.
    destruct (decide (id1 = "")), (decide (id2 = "")); try done.
    apply map_eq. intros j. rewrite !(lookup_alter (M:=gmap string)).
    destruct (decide (id1 = id2)) as [<- | Hne].
    + destruct Hsep as [? | Hdisj]; [done |].
      rewrite (decide_True (P := id1 = id1)) by done.
      destruct (decide (id1 = j)) as [_ | _]; [| done].
      destruct (items s !! id1) as [it |]; [| done]. simpl. f_equal.
      unfold merge. rewrite !(assoc_L (∪)). f_equal.
      apply map_union_comm, map_disjoint_dom. by symmetry.
    + repeat case_decide; congruence.
  - by rewrite !item_patch_lanes.
Qed.

Lemma item_patches_commute_witness :
  let s := mkBoard (<["Unassigned" := ["I1"]]> DEFAULT_LANES)
                   {["I1" := {["callsign" := VStr "JBU123"]}]} (Some 5%Z) in
  let m1 := ItemPatch (mkPatchMsg (Some "I1")
                         (Some {["altitude" := VStr "FL350"]}) (Some 6%Z)) in
  let m2 := ItemPatch (mkPatchMsg (Some "I1")
                         (Some {["mach" := VStr "M82"]}) (Some 7%Z)) in
  items (run s [(6%Z, m1); (7%Z, m2)]) = items (run s [(6%Z, m2); (7%Z, m1)]) ∧
  lanes (run s [(6%Z, m1); (7%Z, m2)]) = lanes (run s [(6%Z, m2); (7%Z, m1)]).
Proof.
  intros s.
  apply (item_patches_commute 6 7 6 7 s "I1" "I1"
           {["altitude" := VStr "FL350"]} {["mach" := VStr "M82"]}
           (Some 6%Z) (Some 7%Z)); [by eexists | by eexists |].
  right. rewrite !dom_singleton_L. apply disjoint_singleton_l.
  by rewrite elem_of_singleton.
Defined.

Lemma coarse_trace_rejected (p : BoardState) (later : list (Z * BoardState)) :
  Forall (λ nq, (stamp nq.2 < stamp p)%Z) later →
  run p (coarse_trace later) = p.
Proof.
  induction 1 as [| [n q] rest Hq Hrest IH]; [done |]. simpl in *.
  assert (rejects p q) as Hrej by (by apply rejects_iff).
  unfold rejects in Hrej. by rewrite Hrej.
Qed.

(** X14. Among any number of coarse updates, the one with the highest stamp
    is what the store ends with, wherever it arrives in the sequence:
    payloads stamped strictly lower that arrive before or after it do not
    survive. *)
Theorem coarse_updates_highest_wins
    (s p : BoardState) (n : Z) (earlier later : list (Z * BoardState)) :
  (stamp s ≤ stamp p)%Z →
  Forall (λ nq, (stamp nq.2 < stamp p)%Z) earlier →
  Forall (λ nq, (stamp nq.2 < stamp p)%Z) later →
  run s (coarse_trace (earlier ++ (n, p) :: later)) = p.
Proof.
  intros Hs Hearlier Hlater. revert s Hs.
  induction Hearlier as [| [n' q] rest Hq Hrest IH]; intros s Hs; simpl in *.
  - assert (installs s p) as Hin by (by apply installs_iff).
    unfold installs in Hin. rewrite Hin. simpl. by apply coarse_trace_rejected.
  - apply IH.
    destruct (board_update_cases s q) as [[_ Hin] | [_ Hrej]].
    + unfold installs in Hin. rewrite Hin. simpl. lia.
    + unfold rejects in Hrej. by rewrite Hrej.
Qed.

Lemma coarse_updates_highest_wins_witness :
  let a := mkBoard DEFAULT_LANES ∅ (Some 20%Z) in
  let b := mkBoard (<["Piarco" := ["I1"]]> DEFAULT_LANES)
                   {["I1" := {["callsign" := VStr "JBU123"]}]} (Some 40%Z) in
  let c := mkBoard DEFAULT_LANES ∅ (Some 30%Z) in
  run (boardState_init 10)
      (coarse_trace ([(11%Z, a)] ++ (12%Z, b) :: [(13%Z, c)])) = b.
Proof.
  intros a b c.
  apply (coarse_updates_highest_wins (boardState_init 10) b 12
           [(11%Z, a)] [(13%Z, c)]).
  - unfold stamp. simpl. lia.
  - by repeat constructor.
  - by repeat constructor.
Defined.

(** ** Local edits: removing and adding cards *)




Section client_with_runtime.
Context `{JsRuntime}.

Lemma new_item_callsign (id : string) (p : VatsimPilot) :
  new_item id p !! "callsign" = Some (VStr (p_callsign p)).
Proof.
  unfold new_item. rewrite !lookup_insert_ne by done. apply lookup_insert_eq.
Qed.

Lemma some_callsign_false (target : string) (vals : list (gmap string value)) :
  some_callsign target vals = Some false →
  ∀ x, x ∈ vals →
    ∃ c, x !! "callsign" = Some (VStr c) ∧ toLowerCase c ≠ toLowerCase target.
Proof.
  induction vals as [| y rest IH]; simpl; [by intros _ x ?%not_elem_of_nil |].
  destruct (y !! "callsign") as [[c | ?] |] eqn:Hy; try done.
  case_bool_decide as Hc; [done |].
  intros Hrest x [-> | Hx]%elem_of_cons; [by exists c | by apply IH].
Qed.

Lemma some_callsign_true (target : string) (vals : list (gmap string value)) :
  Forall (λ x, ∃ c, x !! "callsign" = Some (VStr c)) vals →
  (∃ x c, x ∈ vals ∧ x !! "callsign" = Some (VStr c) ∧
          toLowerCase c = toLowerCase target) →
  some_callsign target vals = Some true.
Proof.
  induction 1 as [| y rest [d Hy] Hrest IH]; simpl.
  - by intros (x & c & ?%not_elem_of_nil & _).
  - rewrite Hy. case_bool_decide as Hd; [done |].
    intros (x & c & [-> | Hx]%elem_of_cons & Hc & Heq).
    + rewrite Hy in Hc. injection Hc as ->. done.
    + apply IH. by exists x, c.
Qed.

(** X16. A pilot whose callsign is already on the board, in whatever case,
    is not added: when every card carries a callsign and one of them
    matches, [addPilotToUnassigned] leaves the mirror exactly as it
    was. *)
Theorem addPilotToUnassigned_taken (vals : list (gmap string value))
    (id : string) (now : Z) (prev : BoardState) (p : VatsimPilot)
    (x : gmap string value) (c : string) :
  Forall (λ y, ∃ d, y !! "callsign" = Some (VStr d)) vals →
  x ∈ vals →
  x !! "callsign" = Some (VStr c) →
  toLowerCase c = toLowerCase (p_callsign p) →
  addPilotToUnassigned vals id now prev p = Done prev.
Proof.
  intros Hall Hx Hc Heq. unfold addPilotToUnassigned.
  rewrite some_callsign_true; [done | done |]. by exists x, c.
Qed.

(** X17. One card per callsign: when [vals], the cards the duplicate check
    reads from the state of the last render, holds every card of [prev],
    the mirror the updater inserts into, and the callsigns of the cards of
    [prev] are distinct, case aside, they still are after
    [addPilotToUnassigned], whatever id the new card gets. *)
Theorem addPilotToUnassigned_unique_callsigns
    (vals : list (gmap string value)) (id : string) (now : Z)
    (prev next : BoardState) (p : VatsimPilot) :
  (∀ j y, items prev !! j = Some y → y ∈ vals) →
  unique_callsigns (items prev) →
  addPilotToUnassigned vals id now prev p = Done next →
  unique_callsigns (items next).
Proof.
  intros Hvals Huniq. unfold addPilotToUnassigned.
  destruct (some_callsign (p_callsign p) vals) as [[|] |] eqn:Hsome; try done.
  { by intros [= <-]. }
  destruct (lanes prev !! "Unassigned") as [unassigned |]; [| done].
  intros [= <-]. simpl.
  pose proof (some_callsign_false _ _ Hsome) as Hfresh.
  intros i j x y c d Hi Hj Hc Hd Heq.
  destruct (decide (i = j)) as [| Hij]; [done |]. exfalso.
  rewrite lookup_insert in Hi. rewrite lookup_insert in Hj.
  destruct (decide (id = i)) as [<- | Hidi], (decide (id = j)) as [<- | Hidj];
    try done.
  - injection Hi as <-. rewrite new_item_callsign in Hc. injection Hc as <-.
    destruct (Hfresh y (Hvals _ _ Hj)) as (d' & Hd' & Hne).
    rewrite Hd in Hd'. injection Hd' as <-. by apply Hne.
  - injection Hj as <-. rewrite new_item_callsign in Hd. injection Hd as <-.
    destruct (Hfresh x (Hvals _ _ Hi)) as (c' & Hc' & Hne).
    rewrite Hc in Hc'. injection Hc' as <-. by apply Hne.
  - apply Hij. by apply (Huniq i j x y c d).
Qed.

(** X18. A pilot whose callsign is not on the board is added as a card at
    the head of lane [Unassigned]; when the id is new to the mirror,
    referential integrity and single-lane membership survive, and
    deleting the card again gives back the items and the lanes. *)
Theorem addPilotToUnassigned_fresh
    (vals : list (gmap string value)) (id : string) (now now' : Z)
    (prev : BoardState) (p : VatsimPilot) (unassigned : list string) :
  some_callsign (p_callsign p) vals = Some false →
  lanes prev !! "Unassigned" = Some unassigned →
  items prev !! id = None →
  id ∉ lane_ids (lanes prev) →
  ∃ next,
    addPilotToUnassigned vals id now prev p = Done next ∧
    lanes next !! "Unassigned" = Some (id :: unassigned) ∧
    items next !! id = Some (new_item id p) ∧
    lastUpdated next = Some now ∧
    (ref_integrity prev → ref_integrity next) ∧
    (single_lane prev → single_lane next) ∧
    items (deleteItem now' next id) = items prev ∧
    lanes (deleteItem now' next id) = lanes prev.
Proof.
  intros Hsome Hun Hid Hlanes. unfold addPilotToUnassigned.
  rewrite Hsome, Hun. eexists. split; [done |]. simpl.
  assert (∀ k arr, lanes prev !! k = Some arr → id ∉ arr) as Hno.
  { intros k arr Hk Hin. apply Hlanes, elem_of_lane_ids. by exists k, arr. }
  assert (∀ x, x ∈ lane_ids (<["Unassigned" := id :: unassigned]> (lanes prev))
               ↔ x = id ∨ x ∈ lane_ids (lanes prev)) as Hids.
  { intros x. rewrite !elem_of_lane_ids. split.
    - intros (k & arr & Hk & Hx). rewrite lookup_insert in Hk.
      case_decide as Hku.
      + injection Hk as <-. apply elem_of_cons in Hx as [-> | Hx]; [by left |].
        right. by exists "Unassigned", unassigned.
      + right. by exists k, arr.
    - intros [-> | (k & arr & Hk & Hx)].
      + exists "Unassigned", (id :: unassigned).
        rewrite lookup_insert_eq. split; [done | apply list_elem_of_here].
      + destruct (decide ("Unassigned" = k)) as [<- | Hku].
        * exists "Unassigned", (id :: unassigned). rewrite lookup_insert_eq.
          split; [done |]. rewrite Hun in Hk. injection Hk as <-.
          by apply list_elem_of_further.
        * exists k, arr. by rewrite lookup_insert_ne. }
  repeat split.
  - apply lookup_insert_eq.
  - apply lookup_insert_eq.
  - unfold ref_integrity. simpl. intros Hinv. apply set_eq. intros x.
    rewrite Hids, dom_insert_L, elem_of_union, elem_of_singleton.
    by rewrite Hinv.
  - unfold single_lane, set_Forall. simpl. intros Hinv x.
    rewrite dom_insert_L, elem_of_union, elem_of_singleton.
    pose proof (occurrences_replace x "Unassigned" (id :: unassigned)
                  (lanes prev)) as Hrep.
    unfold lane_or_empty in Hrep. rewrite Hun in Hrep. simpl in Hrep.
    rewrite count_id_cons in Hrep.
    intros [-> | Hx].
    + rewrite decide_True in Hrep by done.
      assert (occurrences id (lanes prev) = 0) as Hzero
        by (by apply occurrences_zero_iff).
      assert (count_id id unassigned = 0) as Hcount
        by (by apply count_id_zero, (Hno "Unassigned")).
      lia.
    + specialize (Hinv x Hx).
      assert (id ≠ x) as Hne.
      { intros <-. apply elem_of_dom in Hx as [? Hx]. by rewrite Hid in Hx. }
      rewrite decide_False in Hrep by done. lia.
  - rewrite delete_insert_eq. by apply delete_id.
  - rewrite fmap_insert. unfold without at 1.
    rewrite filter_cons_False by (by intros ?). fold (without id unassigned).
    rewrite (without_absent id unassigned) by (by apply (Hno "Unassigned")).
    assert (without id <$> lanes prev = lanes prev) as ->.
    { apply map_eq. intros k. rewrite lookup_fmap.
      destruct (lanes prev !! k) as [arr |] eqn:Hk; [| done]. simpl.
      by rewrite without_absent by (by apply (Hno k)). }
    by apply insert_id.
Qed.

(** X19. The card made for a pilot has the nine fields of a board item: its
    callsign is the pilot's, its altitude is empty or ["FL"] and one to
    three digits, its route waypoints are distinct valid waypoints, and
    the three fields left for the controller are empty. *)
Theorem new_item_shape (id : string) (p : VatsimPilot) :
  dom (new_item id p)
    = list_to_set ["id"; "source"; "callsign"; "waypoint"; "estimate";
                   "altitude"; "mach"; "squawk"; "routeWaypoints"] ∧
  new_item id p !! "id" = Some (VStr id) ∧
  new_item id p !! "callsign" = Some (VStr (p_callsign p)) ∧
  new_item id p !! "waypoint" = Some (VStr "") ∧
  new_item id p !! "estimate" = Some (VStr "") ∧
  new_item id p !! "mach" = Some (VStr "") ∧
  (∃ a, new_item id p !! "altitude" = Some (VStr a) ∧
        (a = "" ∨ ∃ d, a = "FL" +:+ d ∧ 1 ≤ String.length d ≤ 3 ∧
                       all_digits d = true)) ∧
  (∃ ws, new_item id p !! "routeWaypoints" = Some (VArr ws) ∧ NoDup ws ∧
         ∀ t, t ∈ ws → 2 ≤ String.length t ≤ 7 ∧ all_upper_or_digit t = true).
Proof.
  unfold new_item.
  split.
  { rewrite !dom_insert_L, dom_empty_L. simpl. by rewrite !(assoc_L (∪)). }
  repeat (split; [rewrite ?lookup_insert_ne by done; apply lookup_insert_eq |]).
  split.
  - eexists. split; [rewrite !lookup_insert_ne by done; apply lookup_insert_eq |].
    match goal with |- context [fmtFL ?input] => set (text := input) end.
    unfold fmtFL. case_bool_decide as Hd; [by left | right].
    exists (slice0 3 (digits text)). split; [done |].
    pose proof (slice0_length 3 (digits text)).
    split; [| by apply slice0_all_digits, digits_all_digits].
    destruct (slice0 3 (digits text)); [done | simpl in *; lia].
  - eexists. split; [rewrite !lookup_insert_ne by done; apply lookup_insert_eq |].
    split; [apply parseWaypointsFromRoute_NoDup |].
    apply parseWaypointsFromRoute_valid.
Qed.

End client_with_runtime.

Lemma addPilotToUnassigned_taken_witness :
  let card : gmap string value := {["callsign" := VStr "JBU123"]} in
  let prev := mkBoard (<["Unassigned" := ["I1"]]> DEFAULT_LANES)
                      {["I1" := card]} (Some 5%Z) in
  let p := mkPilot "jbu123" 35000 None in
  @addPilotToUnassigned plain_runtime [card] "I2" 9 prev p = Done prev.
Proof.
  intros card prev p.
  apply (@addPilotToUnassigned_taken plain_runtime [card] "I2" 9 prev p
           card "JBU123").
  - repeat constructor. by exists "JBU123".
  - apply list_elem_of_here.
  - reflexivity.
  - reflexivity.
Defined.

Lemma addPilotToUnassigned_unique_callsigns_witness :
  let card : gmap string value := {["callsign" := VStr "JBU123"]} in
  let prev := mkBoard (<["Unassigned" := ["I1"]]> DEFAULT_LANES)
                      {["I1" := card]} (Some 5%Z) in
  let p := mkPilot "AAL45" 35000 None in
  ∃ next, @addPilotToUnassigned plain_runtime [card] "I2" 9 prev p = Done next ∧
          @unique_callsigns plain_runtime (items next).
Proof.
  intros card prev p. eexists. split; [reflexivity |].
  apply (@addPilotToUnassigned_unique_callsigns plain_runtime
           [card] "I2" 9 prev _ p).
  - intros j y Hj. unfold prev in Hj. cbn [items] in Hj.
    apply lookup_singleton_Some in Hj as [_ <-]. apply list_elem_of_here.
  - intros i j x y c d Hi Hj _ _ _. unfold prev in Hi, Hj. cbn [items] in Hi, Hj.
    apply lookup_singleton_Some in Hi as [<- _].
    by apply lookup_singleton_Some in Hj as [<- _].
  - reflexivity.
Defined.

Lemma addPilotToUnassigned_fresh_witness :
  let card : gmap string value := {["callsign" := VStr "JBU123"]} in
  let prev := mkBoard (<["Unassigned" := ["I1"]]> DEFAULT_LANES)
                      {["I1" := card]} (Some 5%Z) in
  let p := mkPilot "AAL45" 35000 None in
  ∃ next,
    @addPilotToUnassigned plain_runtime [card] "I2" 9 prev p = Done next ∧
    lanes next !! "Unassigned" = Some ["I2"; "I1"] ∧
    items (deleteItem 10 next "I2") = items prev ∧
    lanes (deleteItem 10 next "I2") = lanes prev.
Proof.
  intros card prev p.
  destruct (@addPilotToUnassigned_fresh plain_runtime [card] "I2" 9 10 prev p ["I1"])
    as (next & Hadd & Hlane & _ & _ & _ & _ & Hitems & Hlanes).
  - reflexivity.
  - reflexivity.
  - reflexivity.
  - rewrite elem_of_lane_ids. intros (k & arr & Hk & Hin).
    unfold prev in Hk. cbn [lanes] in Hk.
    apply lookup_insert_Some in Hk as [[_ <-] | [_ Hk]].
    + by apply elem_of_cons in Hin as [[=] | ?%not_elem_of_nil].
    + unfold DEFAULT_LANES in Hk.
      repeat (apply lookup_insert_Some in Hk as [[_ <-] | [_ Hk]];
              [by apply not_elem_of_nil in Hin |]).
      by rewrite lookup_empty in Hk.
  - by exists next.
Defined.

(** ** Messages the server drops *)




(** ** Drops *)

Lemma index_of_lookup (x : string) (arr : list string) (i : nat) :
  index_of x arr = Some i → arr !! i = Some x.
Proof.
  revert i. induction arr as [| y rest IH]; intros i; simpl; [done |].
  case_bool_decide as Hy; [by intros [= <-]; subst y |].
  destruct (index_of x rest) as [j |]; simpl; [| done].
  intros [= <-]. simpl. by apply IH.
Qed.

Lemma find_elem_of (test : string → bool) (keys : list string) (k : string) :
  List.find test keys = Some k → k ∈ keys ∧ test k = true.
Proof.
  intros [Hin Htest]%List.find_some. split; [| done]. by apply list_elem_of_In.
Qed.

(** X22. A drop on an unchanged board asks only for what the board
    allows.  A cross-lane move is asked for the dragged card, without an
    index, from the lane that holds it to a different lane of the board, so
    the [lanes:move] that [moveItem] sends passes the single-lane check of a
    server holding the same board; a reorder is asked with two different
    positions of one lane, the dragged card's and the target's. *)
Theorem handleDragEnd_asks_admissible (laneKeys : list string)
    (state : BoardState) (active : string) (over : option string)
    (now now' : Z) :
  let origin := handleDragStart laneKeys state active in
  match handleDragEnd laneKeys state origin active over with
  | NoDrop => True
  | Move id from to =>
      id = active ∧ origin = Some from ∧ from ≠ to ∧ from ≠ "" ∧ to ≠ "" ∧
      from ∈ laneKeys ∧ to ∈ laneKeys ∧
      id ∈ lane_or_empty (lanes state) from ∧
      keeps_single_lane state
        (LanesMove (moveItem now now' state id from to None).2) = true
  | Reorder lane oldIndex newIndex =>
      origin = Some lane ∧ lane ∈ laneKeys ∧ oldIndex ≠ newIndex ∧
      lane_or_empty (lanes state) lane !! oldIndex = Some active ∧
      ∃ overId, over = Some overId ∧
                lane_or_empty (lanes state) lane !! newIndex = Some overId
  end.
Proof.
  cbv zeta. unfold handleDragEnd, handleDragStart.
  destruct over as [overId |]; [| done].
  destruct (truthy (List.find (λ k, _ || _) laneKeys)) as [overLane |] eqn:Hover;
    [| done].
  destruct (truthy (List.find (λ l, bool_decide (active ∈ _)) laneKeys))
    as [origin |] eqn:Horigin; [| done].
  apply truthy_Some in Hover as [[Hover_in _]%find_elem_of Hover_ne].
  apply truthy_Some in Horigin as [[Horigin_in Hheld]%find_elem_of Horigin_ne].
  apply bool_decide_eq_true in Hheld.
  rewrite (truthy_nonempty origin) by done.
  case_bool_decide as Hsame.
  - subst overLane.
    destruct (index_of active _) as [oldIndex |] eqn:Hold; [| done].
    destruct (index_of overId _) as [newIndex |] eqn:Hnew; [| done].
    case_bool_decide as Hdiff; [| done].
    repeat split; try done.
    + by apply index_of_lookup.
    + exists overId. split; [done |]. by apply index_of_lookup.
  - repeat split; try done. unfold keeps_single_lane, moveItem. cbn [snd mv_id mv_from mv_to].
    rewrite (truthy_nonempty origin), (truthy_nonempty overLane) by done.
    destruct (truthy (Some active)) as [id |] eqn:Hid; [| done].
    apply truthy_Some in Hid as [[= <-] _].
    apply andb_true_iff. split; apply bool_decide_eq_true; done.
Qed.

(** The scenario of a drag from [Unassigned] onto lane [Piarco]. *)
Example handleDragEnd_example :
  let keys := ["Unassigned"; "New York"; "Curacao"; "Piarco"; "Maiquetia"] in
  let s := mkBoard (<["Unassigned" := ["I1"; "I2"]]> DEFAULT_LANES)
                   {["I1" := {["callsign" := VStr "JBU123"]};
                     "I2" := {["callsign" := VStr "AAL45"]}]} (Some 5%Z) in
  handleDragEnd keys s (handleDragStart keys s "I2") "I2" (Some "Piarco")
    = Move "I2" "Unassigned" "Piarco" ∧
  handleDragEnd keys s (handleDragStart keys s "I2") "I2" (Some "I1")
    = Reorder "Unassigned" 1 0 ∧
  handleDragEnd keys s (handleDragStart keys s "I2") "I2" None = NoDrop.
Proof. repeat split; by vm_compute. Qed.
